(** * BiAnalitico: comparative analysis of monthly complaint records

    A shallow embedding of [src/BiAnalitico.py].

    Conventions of the embedding.
    - A Python [str] is a [string] whose characters are code points below
      256 (Latin-1); the two accented letters of the source, the cedilla of
      the third month and the circumflex of the accented column name, are
      single characters with codes 231 and 234.
    - Python integers are [Z]. A Python float is a [float64]: a rational
      or an infinity. The variation calculator is given twice: on the counts
      of records that the report passes to it, where no quotient leaves the
      range of a float, with exact rationals [Q] (rounding is not modelled);
      and on arbitrary Python integers, with the rounding of binary64, the
      [OverflowError] of the division and the infinity of the product
      ([analisar_variacao_float]).
    - A pandas cell is an [option]: [None] is NaN / <NA>.
    - A raised exception is the left injection of a sum; Streamlit output is
      a list of messages threaded through a small monad. *)

From Stdlib Require Import List String Ascii Bool ZArith NArith QArith Qabs Lia.
From Stdlib Require Import Sorted Permutation.
Import ListNotations.

Local Open Scope string_scope.
Local Open Scope Z_scope.

(** ** Exceptions and fallible computations *)

Inductive exc : Type :=
| KeyError (k : string)
| TypeError
| AttributeError
| ZeroDivisionError
| OverflowError.

Definition res (A : Type) : Type := (exc + A)%type.

Definition ret {A} (a : A) : res A := inr a.
Definition raise {A} (e : exc) : res A := inl e.
Definition bind {A B} (m : res A) (k : A -> res B) : res B :=
  match m with
  | inl e => inl e
  | inr a => k a
  end.

Notation "x <- m ;; k" := (bind m (fun x => k))
  (at level 61, m at next level, right associativity).

Fixpoint mapM {A B} (f : A -> res B) (l : list A) : res (list B) :=
  match l with
  | [] => ret []
  | a :: l' => b <- f a ;; bs <- mapM f l' ;; ret (b :: bs)
  end.

(** ** The variation calculator (lines 7-14) *)

(** Python's true division of two integers whose quotient is within the
    range of a float, as it is for the counts of records of the report;
    the quotient is kept exact. [truediv_int] below is the division on
    all integers. *)
Definition truediv (a b : Z) : res Q :=
  if b =? 0 then raise ZeroDivisionError
  else ret (inject_Z a / inject_Z b)%Q.

Definition Qgtb (x y : Q) : bool :=
  match (x ?= y)%Q with Gt => true | _ => false end.

Definition Qltb (x y : Q) : bool :=
  match (x ?= y)%Q with Lt => true | _ => false end.

Definition analisar_variacao (count_atual count_anterior : Z) : res (Q * Z) :=
  if count_anterior =? 0 then
    if count_atual =? 0 then ret (0%Q, 0)
    else ret (100%Q, 1)
  else
    q <- truediv (count_atual - count_anterior) count_anterior ;;
    let var := (q * 100)%Q in
    ret (var, if Qgtb var 0 then 1 else -1).

(** The percentage of the third branch, as the source writes it. *)
Definition percentual (count_atual count_anterior : Z) : Q :=
  (inject_Z (count_atual - count_anterior) / inject_Z count_anterior * 100)%Q.

(** ** The variation calculator on arbitrary integers *)

(** A binary64 number that is not NaN. *)
Inductive float64 : Type :=
| Finito (q : Q)
| Infinito (negativo : bool).

(** The least magnitude that rounds to infinity: half-way between the
    largest binary64 number, 2^1024 - 2^971, and 2^1024. *)
Definition limite : Z := 2 ^ 1024 - 2 ^ 970.

Definition transborda (x : Q) : bool :=
  Qle_bool (inject_Z limite) (Qabs x).

(** The least positive binary64 number, 2^-1074. *)
Definition minimo : Q := 1 # Z.to_pos (2 ^ 1074).

(** The integer part of the binary logarithm of a positive rational. *)
Definition expoente (x : Q) : Z :=
  let n := Qnum x in
  let d := Zpos (Qden x) in
  let e := Z.log2 n - Z.log2 d in
  if (if 0 <=? e then 2 ^ e * d <=? n else d <=? n * 2 ^ (- e))
  then e else e - 1.

(** The integer nearest to [n / d], the even one of two that are equally
    near; [0 <= n] and [0 < d]. *)
Definition meio_par (n d : Z) : Z :=
  let q := n / d in
  let r := n mod d in
  if 2 * r <? d then q
  else if d <? 2 * r then q + 1
  else if Z.even q then q else q + 1.

(** [m * 2^u] *)
Definition escalar (m u : Z) : Q :=
  if 0 <=? u then inject_Z (m * 2 ^ u) else m # Z.to_pos (2 ^ (- u)).

(** Rounding to binary64, to nearest and to even: 53 significant bits, and
    no bit below 2^-1074. *)
Definition arredondar_positivo (x : Q) : Q :=
  let n := Qnum x in
  let d := Zpos (Qden x) in
  let u := Z.max (expoente x - 52) (-1074) in
  let m := if 0 <=? u then meio_par n (d * 2 ^ u)
           else meio_par (n * 2 ^ (- u)) d in
  escalar m u.

Definition arredondar (x : Q) : Q :=
  match Qnum x with
  | Z0 => 0%Q
  | Zpos _ => arredondar_positivo x
  | Zneg _ => (- arredondar_positivo (- x))%Q
  end.

(** [a / b] on Python integers: the quotient correctly rounded, and
    [OverflowError] when it is too large for a float. *)
Definition truediv_int (a b : Z) : res float64 :=
  if b =? 0 then raise ZeroDivisionError
  else
    let x := (inject_Z a / inject_Z b)%Q in
    if transborda x then raise OverflowError
    else ret (Finito (arredondar x)).

(** [x * 100] on a float: the product rounded, an infinity when it is too
    large. *)
Definition vezes_100 (x : float64) : float64 :=
  match x with
  | Finito q =>
      let p := (q * 100)%Q in
      if transborda p then Infinito (Qltb p 0) else Finito (arredondar p)
  | Infinito negativo => Infinito negativo
  end.

(** [x > 0] on a float. *)
Definition positivo (x : float64) : bool :=
  match x with
  | Finito q => Qgtb q 0
  | Infinito negativo => negb negativo
  end.

Definition analisar_variacao_float (count_atual count_anterior : Z)
    : res (float64 * Z) :=
  if count_anterior =? 0 then
    if count_atual =? 0 then ret (Finito 0, 0)
    else ret (Finito 100, 1)
  else
    q <- truediv_int (count_atual - count_anterior) count_anterior ;;
    let var := vezes_100 q in
    ret (var, if positivo var then 1 else -1).

(** ** Python strings: [str.lower] and [str.strip] on Latin-1 text *)

Definition code (c : ascii) : N := N_of_ascii c.

(** Upper-case letters of Latin-1: A-Z and the accented capitals
    U+00C0-U+00DE without the multiplication sign U+00D7. *)
Definition is_upper (c : ascii) : bool :=
  let n := code c in
  (((65 <=? n) && (n <=? 90)) ||
   ((192 <=? n) && (n <=? 222) && negb (n =? 215)))%N.

Definition lower_char (c : ascii) : ascii :=
  if is_upper c then ascii_of_N (code c + 32) else c.

Fixpoint lower (s : string) : string :=
  match s with
  | EmptyString => EmptyString
  | String c s' => String (lower_char c) (lower s')
  end.

(** Characters removed by [str.strip()] with no argument: the white space
    of Latin-1. *)
Definition isspace (c : ascii) : bool :=
  let n := code c in
  (((9 <=? n) && (n <=? 13)) || ((28 <=? n) && (n <=? 32)) ||
   (n =? 133) || (n =? 160))%N.

Fixpoint lstrip (s : string) : string :=
  match s with
  | EmptyString => EmptyString
  | String c s' => if isspace c then lstrip s' else s
  end.

Fixpoint rstrip (s : string) : string :=
  match s with
  | EmptyString => EmptyString
  | String c s' =>
      match rstrip s' with
      | EmptyString => if isspace c then EmptyString else String c EmptyString
      | r => String c r
      end
  end.

Definition strip (s : string) : string := lstrip (rstrip s).

(** ** Months (lines 20-24 and 40-44) *)

Definition c_cedilha : ascii := ascii_of_N 231.
Definition e_circunflexo : ascii := ascii_of_N 234.

Definition marco : string := "mar" ++ String c_cedilha "o".
Definition mes_acentuado : string := "m" ++ String e_circunflexo "s".

Definition ORDEM_MESES : list string :=
  [ "janeiro"; "fevereiro"; marco; "abril"; "maio"; "junho";
    "julho"; "agosto"; "setembro"; "outubro"; "novembro"; "dezembro" ].

Definition meses_map : list (string * string) :=
  [ ("jan", "janeiro"); ("fev", "fevereiro"); ("mar", marco); ("abr", "abril");
    ("mai", "maio"); ("jun", "junho"); ("jul", "julho"); ("ago", "agosto");
    ("set", "setembro"); ("out", "outubro"); ("nov", "novembro");
    ("dez", "dezembro") ].

Fixpoint dict_get {V} (d : list (string * V)) (k : string) : option V :=
  match d with
  | [] => None
  | (k', v) :: d' => if String.eqb k' k then Some v else dict_get d' k
  end.

Definition str_in (s : string) (l : list string) : bool :=
  existsb (String.eqb s) l.

(** ** Cells, series and data frames *)

(** The value of a cell that is not missing: text or a whole number. A
    number with a fractional part only arises when [pd.to_numeric] parses a
    string. *)
Inductive valor : Type :=
| Int (z : Z)
| Str (s : string).

(** [None] is a missing cell (NaN, <NA>). *)
Definition cell : Type := option valor.

Definition valor_eqb (a b : valor) : bool :=
  match a, b with
  | Int x, Int y => x =? y
  | Str x, Str y => String.eqb x y
  | _, _ => false
  end.

Definition cell_eqb (a b : cell) : bool :=
  match a, b with
  | Some x, Some y => valor_eqb x y
  | _, _ => false
  end.

Definition desconhecido : cell := Some (Str "desconhecido").

(** A table: one name per column, one cell per column in every row. *)
Record DataFrame : Type := mkDF {
  columns : list string;
  rows : list (list cell)
}.

(** [pd.DataFrame()] *)
Definition DataFrame_vazio : DataFrame := mkDF [] [].

(** [df.empty]: some axis has length zero. *)
Definition empty (df : DataFrame) : bool :=
  match columns df, rows df with
  | _ :: _, _ :: _ => false
  | _, _ => true
  end.

(** Positions of the columns called [name]. *)
Fixpoint posicoes_desde (i : nat) (name : string) (cols : list string) : list nat :=
  match cols with
  | [] => []
  | c :: cols' =>
      if String.eqb c name then i :: posicoes_desde (S i) name cols'
      else posicoes_desde (S i) name cols'
  end.

Definition posicoes (name : string) (cols : list string) : list nat :=
  posicoes_desde 0 name cols.

Definition celula (i : nat) (row : list cell) : cell := nth i row None.

(** What [df[name]] evaluates to: a Series when the name is unique, a
    DataFrame when several columns share it. *)
Inductive item : Type :=
| Series (vals : list cell)
| Frame.

Definition getitem (df : DataFrame) (name : string) : res item :=
  match posicoes name (columns df) with
  | [] => raise (KeyError name)
  | [i] => ret (Series (map (celula i) (rows df)))
  | _ => ret Frame
  end.

Fixpoint substituir (i : nat) (v : cell) (row : list cell) : list cell :=
  match row, i with
  | [], _ => []
  | _ :: row', O => v :: row'
  | c :: row', S i' => c :: substituir i' v row'
  end.

(** [df[name] = vals] for a column that exists once, or not yet. *)
Definition setitem (df : DataFrame) (name : string) (vals : list cell) : DataFrame :=
  match posicoes name (columns df) with
  | [] => mkDF (columns df ++ [name])%list
               (map (fun rv => (fst rv ++ [snd rv])%list) (combine (rows df) vals))
  | i :: _ => mkDF (columns df)
               (map (fun rv => substituir i (snd rv) (fst rv)) (combine (rows df) vals))
  end.

(** [df.dropna(subset=names)]: rows with a missing cell in a column of
    [names] are removed. *)
Definition presente (df : DataFrame) (row : list cell) (name : string) : bool :=
  forallb (fun i => match celula i row with Some _ => true | None => false end)
          (posicoes name (columns df)).

Definition dropna (df : DataFrame) (names : list string) : DataFrame :=
  mkDF (columns df)
       (filter (fun row => forallb (presente df row) names) (rows df)).

Definition fillna (v : cell) (c : cell) : cell :=
  match c with
  | Some _ => c
  | None => v
  end.

Fixpoint fillna_linha (v : cell) (name : string) (cols : list string)
    (row : list cell) : list cell :=
  match cols, row with
  | c :: cols', x :: row' =>
      (if String.eqb c name then fillna v x else x) :: fillna_linha v name cols' row'
  | _, _ => row
  end.

(** One turn of the loop of lines 52-56. *)
Definition preencher (df : DataFrame) (col : string) : DataFrame :=
  if str_in col (columns df) then
    mkDF (columns df) (map (fillna_linha desconhecido col (columns df)) (rows df))
  else
    setitem df col (repeat desconhecido (List.length (rows df))).

(** ** Normalisation (lines 27-65) *)

(** [df.rename(columns={old: new})] *)
Definition rename (old new : string) (cols : list string) : list string :=
  map (fun c => if String.eqb c old then new else c) cols.

(** [.str] is only defined on a Series of dtype object: one that holds a
    string, or has no element. *)
Definition dtype_object (vals : list cell) : bool :=
  match vals with
  | [] => true
  | _ => existsb (fun c => match c with Some (Str _) => true | _ => false end) vals
  end.

Definition str_accessor (it : item) : res (list cell) :=
  match it with
  | Frame => raise AttributeError
  | Series vals => if dtype_object vals then ret vals else raise AttributeError
  end.

(** [.str.lower().str.strip()] on one cell; a cell that is not a string
    becomes missing. *)
Definition lower_strip (c : cell) : cell :=
  match c with
  | Some (Str s) => Some (Str (strip (lower s)))
  | _ => None
  end.

(** [.replace(meses_map)] on one cell. *)
Definition replace_meses (c : cell) : cell :=
  match c with
  | Some (Str s) =>
      match dict_get meses_map s with
      | Some full => Some (Str full)
      | None => c
      end
  | _ => c
  end.

(** [pd.Categorical(..., categories=ORDEM_MESES)] on one cell: a value that
    is not a category becomes missing. *)
Definition categorical (c : cell) : cell :=
  match c with
  | Some (Str s) => if str_in s ORDEM_MESES then c else None
  | _ => None
  end.

(** Lines 37-46 on one cell of the month column. *)
Definition canonizar_mes (c : cell) : cell :=
  categorical (replace_meses (lower_strip c)).

(** [astype('Int64')]: a missing value stays missing, a whole number that
    fits in 64 bits is kept, any other value raises. *)
Definition integral (x : float64) : bool :=
  match x with
  | Finito q => Qnum q mod Zpos (Qden q) =? 0
  | Infinito _ => false
  end.

Definition em_Int64 (x : float64) : bool :=
  match x with
  | Finito q =>
      let z := Qnum q / Zpos (Qden q) in
      (- 2 ^ 63 <=? z) && (z <? 2 ^ 63)
  | Infinito _ => false
  end.

Definition para_Int64 (x : option float64) : cell :=
  match x with
  | Some (Finito q) => Some (Int (Qnum q / Zpos (Qden q)))
  | _ => None
  end.

Definition astype_Int64 (xs : list (option float64)) : res (list cell) :=
  if forallb (fun x => match x with
                       | Some v => integral v && em_Int64 v
                       | None => true
                       end) xs
  then ret (map para_Int64 xs)
  else raise TypeError.

(** Lines 51-60: the four categorical columns are filled or created, the
    column of the causal factor is created when it does not exist. *)
Definition completar (df : DataFrame) : DataFrame :=
  let df := fold_left preencher ["segmento"; "ds_canal"; "natureza"; "motivo"] df in
  if str_in "fato_gerador_fato_gerador" (columns df) then df
  else setitem df "fato_gerador_fato_gerador"
               (repeat desconhecido (List.length (rows df))).

(** Lines 30-33: the column names in lower case, trimmed, with the
    accented name of the month column replaced. *)
Definition normalizar_colunas (columns0 : list string) : list string :=
  let cols := map (fun c => strip (lower c)) columns0 in
  if str_in mes_acentuado cols then rename mes_acentuado "mes" cols else cols.

Section Normalizacao.

(** The number parser that [pd.to_numeric] applies to a string: the
    float that the string denotes, which is an infinity for a text such as
    'inf' or '1e400'; [None] when the string is not a number. It belongs
    to pandas and is left open. *)
Variable parse_numeric : string -> option float64.

(** [pd.to_numeric(..., errors='coerce')] on one cell. *)
Definition to_numeric (c : cell) : option float64 :=
  match c with
  | None => None
  | Some (Int z) => Some (Finito (inject_Z z))
  | Some (Str s) => parse_numeric s
  end.

Definition converter_ano (it : item) : res (list cell) :=
  match it with
  | Frame => raise TypeError
  | Series vals => astype_Int64 (map to_numeric vals)
  end.

(** The body of the [try] block. *)
Definition processar_dados_corpo (df : DataFrame) : res DataFrame :=
  let df := mkDF (normalizar_colunas (columns df)) (rows df) in
  ano_s <- getitem df "ano" ;;
  ano <- converter_ano ano_s ;;
  let df := setitem df "ano" ano in
  mes_s <- getitem df "mes" ;;
  mes <- str_accessor mes_s ;;
  let df := setitem df "mes" (map canonizar_mes mes) in
  let df := dropna df ["mes"; "ano"] in
  ret (completar df).

End Normalizacao.

(** ** Streamlit output and [try]/[except] *)

Inductive evento : Type :=
| st_error_ev (prefixo : string) (e : exc).

(** A computation that writes to the page and may raise. *)
Definition ui (A : Type) : Type := list evento -> res A * list evento.

Definition ui_ret {A} (a : A) : ui A := fun out => (inr a, out).
Definition ui_bind {A B} (m : ui A) (k : A -> ui B) : ui B :=
  fun out =>
    match m out with
    | (inl e, out') => (inl e, out')
    | (inr a, out') => k a out'
    end.
Definition lift {A} (m : res A) : ui A := fun out => (m, out).

Definition st_error (prefixo : string) (e : exc) : ui unit :=
  fun out => (inr tt, (out ++ [st_error_ev prefixo e])%list).

(** [try: body  except Exception as e: handler(e)] *)
Definition try_except {A} (body : ui A) (handler : exc -> ui A) : ui A :=
  fun out =>
    match body out with
    | (inl e, out') => handler e out'
    | (inr a, out') => (inr a, out')
    end.

Definition processar_dados (parse_numeric : string -> option float64)
    (df : DataFrame) : ui DataFrame :=
  try_except
    (lift (processar_dados_corpo parse_numeric df))
    (fun e => ui_bind (st_error "Erro no processamento: " e)
                      (fun _ => ui_ret DataFrame_vazio)).

(** ** The columns the report reads *)

(** One row of the normalised frame, restricted to the seven columns that
    the analysis reads. The fields carry the column names. The report is
    modelled on frames in which each of these names occurs once: on two
    columns of one name, [df[name]] is a frame and the report of the
    program raises. *)
Record registro : Type := mkRegistro {
  ano : cell;
  mes : cell;
  segmento : cell;
  ds_canal : cell;
  natureza : cell;
  motivo : cell;
  fato_gerador_fato_gerador : cell
}.

Definition coluna (df : DataFrame) (name : string) (row : list cell) : cell :=
  match posicoes name (columns df) with
  | i :: _ => celula i row
  | [] => None
  end.

Definition registros (df : DataFrame) : list registro :=
  map (fun row =>
         mkRegistro (coluna df "ano" row) (coluna df "mes" row)
                    (coluna df "segmento" row) (coluna df "ds_canal" row)
                    (coluna df "natureza" row) (coluna df "motivo" row)
                    (coluna df "fato_gerador_fato_gerador" row))
      (rows df).

(** ** pandas operations on Series *)

(** A stable insertion sort: among elements that compare equal, the
    earlier one stays first. *)
Fixpoint inserir {A} (leb : A -> A -> bool) (x : A) (l : list A) : list A :=
  match l with
  | [] => [x]
  | y :: l' => if leb x y then x :: l else y :: inserir leb x l'
  end.

Fixpoint ordenar {A} (leb : A -> A -> bool) (l : list A) : list A :=
  match l with
  | [] => []
  | x :: l' => inserir leb x (ordenar leb l')
  end.

(** [.dropna()] on the values of a column. *)
Fixpoint dropna_valores (l : list cell) : list valor :=
  match l with
  | [] => []
  | Some v :: l' => v :: dropna_valores l'
  | None :: l' => dropna_valores l'
  end.

Definition pertence (k : valor) (l : list valor) : bool :=
  existsb (valor_eqb k) l.

(** [.unique()]: the distinct values, in order of first appearance. *)
Fixpoint unique (l : list valor) : list valor :=
  match l with
  | [] => []
  | x :: l' => x :: filter (fun y => negb (valor_eqb x y)) (unique l')
  end.

Definition contar (k : valor) (l : list valor) : Z :=
  Z.of_nat (List.length (filter (valor_eqb k) l)).

(** A Series of numbers indexed by category values. *)
Definition Serie : Type := list (valor * Z).

Definition indice (s : Serie) : list valor := map fst s.

Fixpoint serie_get (s : Serie) (k : valor) : option Z :=
  match s with
  | [] => None
  | (k', n) :: s' => if valor_eqb k' k then Some n else serie_get s' k
  end.

(** [s.get(k, default)] *)
Definition get (s : Serie) (k : valor) (default : Z) : Z :=
  match serie_get s k with
  | Some n => n
  | None => default
  end.

(** [col.value_counts()]: missing cells are not counted; the largest
    count comes first, equal counts in order of first appearance. *)
Definition value_counts (col : list cell) : Serie :=
  let vals := dropna_valores col in
  ordenar (fun a b => snd b <=? snd a)
          (map (fun k => (k, contar k vals)) (unique vals)).

(** The index of an outer join of two indexes without sorting: the
    labels of the left one, then the new labels of the right one. *)
Definition uniao (a b : list valor) : list valor :=
  (a ++ filter (fun k => negb (pertence k a)) b)%list.

(** One row of a comparison table of lines 153-162. *)
Record linha : Type := mkLinha {
  rotulo : valor;
  Atual : Z;
  Anterior : Z;
  Variacao : Z
}.

(** [pd.concat([atual, anterior], axis=1).fillna(0)] followed by the
    column of differences. *)
Definition comparacao (atual anterior : Serie) : list linha :=
  map (fun k =>
         let a := get atual k 0 in
         let b := get anterior k 0 in
         mkLinha k a b (a - b))
      (uniao (indice atual) (indice anterior)).

(** The order of values of one type; Python cannot order a number and a
    text. *)
Definition valor_leb (a b : valor) : bool :=
  match a, b with
  | Int x, Int y => x <=? y
  | Str x, Str y => String.leb x y
  | _, _ => true
  end.

Definition mesmo_tipo (l : list valor) : bool :=
  forallb (fun v => match v with Int _ => true | Str _ => false end) l ||
  forallb (fun v => match v with Str _ => true | Int _ => false end) l.

Definition indices_iguais (a b : list valor) : bool :=
  (List.length a =? List.length b)%nat &&
  forallb (fun p => valor_eqb (fst p) (snd p)) (combine a b).

(** The order in which pandas sorts the labels of an index: the numbers
    first, then the texts. *)
Definition rotulo_leb (a b : valor) : bool :=
  match a, b with
  | Int x, Int y => x <=? y
  | Str x, Str y => String.leb x y
  | Int _, Str _ => true
  | Str _, Int _ => false
  end.

(** The index on which two Series are aligned by an arithmetic method:
    the left index when both are equal, and otherwise their union, sorted.
    The order of the labels only decides ties in [nsmallest] and
    [nlargest]. *)
Definition alinhar (a b : list valor) : list valor :=
  if indices_iguais a b then a
  else ordenar rotulo_leb (uniao a b).

(** [atual.subtract(anterior, fill_value=0)] *)
Definition subtract (atual anterior : Serie) : Serie :=
  map (fun k => (k, get atual k 0 - get anterior k 0))
      (alinhar (indice atual) (indice anterior)).

(** [s.nsmallest(n)] and [s.nlargest(n)], with [keep='first']. *)
Definition nsmallest (n : nat) (s : Serie) : Serie :=
  firstn n (ordenar (fun a b => snd a <=? snd b) s).

Definition nlargest (n : nat) (s : Serie) : Serie :=
  firstn n (ordenar (fun a b => snd b <=? snd a) s).

(** ** The report (lines 78-254) *)

(** Lines 89-93: the rows of one month of one year. *)
Definition periodo (df : list registro) (mes_sel : string) (ano_sel : Z)
    : list registro :=
  filter (fun r => cell_eqb (mes r) (Some (Str mes_sel)) &&
                   cell_eqb (ano r) (Some (Int ano_sel))) df.

Definition len (df : list registro) : Z := Z.of_nat (List.length df).

(** Lines 95-98: the percentage of the general summary. *)
Definition variacao (df_atual df_anterior : list registro) : res Q :=
  let total_atual := len df_atual in
  let total_anterior := len df_anterior in
  let var_diff := total_atual - total_anterior in
  if negb (total_anterior =? 0) then
    q <- truediv var_diff total_anterior ;; ret (q * 100)%Q
  else ret 0%Q.

(** Line 144 and line 167: [df['segmento'].dropna().unique()]. *)
Definition segmentos (df : list registro) : list valor :=
  unique (dropna_valores (map segmento df)).

Definition canais : list string := ["Procon"; "Ouvidoria"; "Geral"].

(** Lines 147-148. *)
Definition do_canal (canal : string) (d : list registro) : list registro :=
  if String.eqb canal "Geral" then d
  else filter (fun r => cell_eqb (ds_canal r) (Some (Str canal))) d.

(** What is shown for one channel under one segment heading. *)
Record tabelas_canal : Type := mkTabelas {
  canal_nome : string;
  comparacao_natureza : list linha;
  comparacao_motivo : list linha
}.

(** The body of the loop over channels (lines 147-163); [None] is the
    [continue] of line 150. The heading's segment is in scope, as in the
    source. *)
Definition analise_canal (df_atual df_anterior : list registro)
    (segmento_sel : valor) (canal : string) : option tabelas_canal :=
  let df_atual_canal := do_canal canal df_atual in
  let df_anterior_canal := do_canal canal df_anterior in
  match df_atual_canal, df_anterior_canal with
  | [], [] => None
  | _, _ =>
      let natureza_atual := value_counts (map natureza df_atual_canal) in
      let natureza_anterior := value_counts (map natureza df_anterior_canal) in
      let motivo_atual := value_counts (map motivo df_atual_canal) in
      let motivo_anterior := value_counts (map motivo df_anterior_canal) in
      Some (mkTabelas canal
                      (comparacao natureza_atual natureza_anterior)
                      (comparacao motivo_atual motivo_anterior))
  end.

Fixpoint somente {A} (l : list (option A)) : list A :=
  match l with
  | [] => []
  | Some a :: l' => a :: somente l'
  | None :: l' => somente l'
  end.

(** Lines 144-163: one heading per segment, the tables of each channel
    under it. *)
Definition analise_segmento_canal (df df_atual df_anterior : list registro)
    : list (valor * list tabelas_canal) :=
  map (fun s => (s, somente (map (analise_canal df_atual df_anterior s) canais)))
      (segmentos df).

(** Lines 198-199. *)
Definition do_segmento (s : valor) (d : list registro) : list registro :=
  filter (fun r => cell_eqb (segmento r) (Some s)) d.

Definition da_natureza (n : valor) (d : list registro) : list registro :=
  filter (fun r => cell_eqb (natureza r) (Some n)) d.

(** Lines 204-206. *)
Definition naturezas_positivas (df_segmento_atual df_segmento_anterior : list registro)
    : Serie :=
  let count_atual_natureza := value_counts (map natureza df_segmento_atual) in
  let count_anterior_natureza := value_counts (map natureza df_segmento_anterior) in
  subtract count_atual_natureza count_anterior_natureza.

(** Lines 210-211: the natures that get an expander under "Redução". *)
Definition reducoes (s : Serie) : Serie :=
  filter (fun kv => snd kv <? 0) (nsmallest 5 s).

(** Lines 234-235: the natures that get an expander under "Aumento". *)
Definition aumentos (s : Serie) : Serie :=
  filter (fun kv => snd kv >? 0) (nlargest 5 s).

(** One line of "Motivos relacionados". *)
Record linha_motivo : Type := mkLinhaMotivo {
  motivo_nome : valor;
  count_anterior : Z;
  count_atual : Z;
  var_motivo : Q
}.

(** Lines 214-218 and 238-242. *)
Definition motivos_relacionados (df_segmento_atual df_segmento_anterior : list registro)
    (n : valor) : res (list linha_motivo) :=
  let motivos_atual := value_counts (map motivo (da_natureza n df_segmento_atual)) in
  let motivos_anterior := value_counts (map motivo (da_natureza n df_segmento_anterior)) in
  mapM (fun kv =>
          let count_anterior := get motivos_anterior (fst kv) 0 in
          r <- analisar_variacao (snd kv) count_anterior ;;
          ret (mkLinhaMotivo (fst kv) count_anterior (snd kv) (fst r)))
       motivos_atual.

(** Lines 228-229 and 252-253. *)
Definition fatos_geradores (df_segmento_atual : list registro) (n : valor) : Serie :=
  firstn 5 (value_counts
              (map fato_gerador_fato_gerador (da_natureza n df_segmento_atual))).

(** The content of one expander. *)
Record detalhe : Type := mkDetalhe {
  natureza_nome : valor;
  delta : Z;
  motivos : list linha_motivo;
  fatos : Serie
}.

Definition expander (df_segmento_atual df_segmento_anterior : list registro)
    (kv : valor * Z) : res detalhe :=
  ms <- motivos_relacionados df_segmento_atual df_segmento_anterior (fst kv) ;;
  ret (mkDetalhe (fst kv) (snd kv) ms (fatos_geradores df_segmento_atual (fst kv))).

(** The two lists shown for one segment. *)
Record analise_detalhada : Type := mkDetalhada {
  com_reducao : list detalhe;
  com_aumento : list detalhe
}.

(** Lines 198-254 for one segment. *)
Definition analise_natureza (df_atual df_anterior : list registro) (s : valor)
    : res analise_detalhada :=
  let df_segmento_atual := do_segmento s df_atual in
  let df_segmento_anterior := do_segmento s df_anterior in
  let np := naturezas_positivas df_segmento_atual df_segmento_anterior in
  red <- mapM (expander df_segmento_atual df_segmento_anterior) (reducoes np) ;;
  aum <- mapM (expander df_segmento_atual df_segmento_anterior) (aumentos np) ;;
  ret (mkDetalhada red aum).

(** What one run of the report computes for a selection of periods. *)
Record relatorio : Type := mkRelatorio {
  total_anterior : Z;
  total_atual : Z;
  variacao_geral : Q;
  por_segmento_e_canal : list (valor * list tabelas_canal);
  por_natureza : list (valor * analise_detalhada)
}.

(** Lines 89-254 on a frame that is not empty. *)
Definition analisar (df : list registro)
    (mes_atual : string) (ano_atual : Z) (mes_anterior : string) (ano_anterior : Z)
    : res relatorio :=
  let df_atual := periodo df mes_atual ano_atual in
  let df_anterior := periodo df mes_anterior ano_anterior in
  v <- variacao df_atual df_anterior ;;
  dets <- mapM (fun s => d <- analise_natureza df_atual df_anterior s ;; ret (s, d))
               (segmentos df) ;;
  ret (mkRelatorio (len df_anterior) (len df_atual) v
                   (analise_segmento_canal df df_atual df_anterior) dets).

(** Lines 70-78 after the file is read: normalise, then report unless the
    frame is empty ([None]: the warning of line 256). *)
Definition relatorio_do_arquivo (parse_numeric : string -> option float64)
    (tabela : DataFrame)
    (mes_atual : string) (ano_atual : Z) (mes_anterior : string) (ano_anterior : Z)
    : ui (option relatorio) :=
  ui_bind (processar_dados parse_numeric tabela) (fun df =>
    if empty df then ui_ret None
    else ui_bind (lift (analisar (registros df) mes_atual ano_atual
                                 mes_anterior ano_anterior))
                 (fun r => ui_ret (Some r))).

(** ** Vocabulary of the statements *)

(** Number of cells of a column that hold the value [k]. *)
Definition ocorrencias (k : valor) (col : list cell) : Z :=
  Z.of_nat (List.length (filter (fun c => cell_eqb c (Some k)) col)).

(** Small letters of Latin-1 that have a capital: a-z and the accented
    letters U+00E0-U+00FE without the division sign U+00F7. *)
Definition is_lower (c : ascii) : bool :=
  let n := code c in
  (((97 <=? n) && (n <=? 122)) ||
   ((224 <=? n) && (n <=? 254) && negb (n =? 247)))%N.

(** The capital of a small letter; other characters have none. *)
Definition maiuscula (c : ascii) : ascii :=
  if is_lower c then ascii_of_N (code c - 32) else c.

(** [variante_caixa m v]: [v] is [m] with some of its letters capitalised. *)
Inductive variante_caixa : string -> string -> Prop :=
| vc_vazio : variante_caixa EmptyString EmptyString
| vc_igual c m v : variante_caixa m v -> variante_caixa (String c m) (String c v)
| vc_maiuscula c m v :
    variante_caixa m v -> variante_caixa (String c m) (String (maiuscula c) v).

Fixpoint espacos (w : string) : bool :=
  match w with
  | EmptyString => true
  | String c w' => isspace c && espacos w'
  end.

(** [grafia m s]: [s] spells [m] in some mix of cases, between white space. *)
Definition grafia (m s : string) : Prop :=
  exists w1 v w2,
    s = (w1 ++ v ++ w2)%string /\ espacos w1 = true /\ espacos w2 = true /\
    variante_caixa m v.

(** The twelve names and the twelve abbreviations. *)
Definition reconhecidos : list string := (ORDEM_MESES ++ map fst meses_map)%list.

(** The full name that a name or an abbreviation stands for. *)
Definition nome_completo (m : string) : string :=
  match dict_get meses_map m with
  | Some full => full
  | None => m
  end.

Definition tem_valor (c : cell) : bool :=
  match c with
  | Some _ => true
  | None => false
  end.

(** Every row has one cell per column. *)
Definition retangular (df : DataFrame) : Prop :=
  Forall (fun row => List.length row = List.length (columns df)) (rows df).

(** The input table under its normalised column names. *)
Definition renomeada (t : DataFrame) : DataFrame :=
  mkDF (normalizar_colunas (columns t)) (rows t).

(** The year of a row as line 36 converts it, when the conversion does
    not raise. *)
Definition ano_Int64 (parse_numeric : string -> option float64) (c : cell) : cell :=
  para_Int64 (to_numeric parse_numeric c).

(** The rows that line 49 keeps, read on the input table. *)
Definition mantida (parse_numeric : string -> option float64) (t : DataFrame)
    (raw : list cell) : bool :=
  tem_valor (canonizar_mes (coluna (renomeada t) "mes" raw)) &&
  tem_valor (ano_Int64 parse_numeric (coluna (renomeada t) "ano" raw)).

(** What normalisation makes of a row that it keeps. *)
Definition normalizar_linha (parse_numeric : string -> option float64) (t : DataFrame)
    (raw : list cell) : registro :=
  let df := renomeada t in
  mkRegistro
    (ano_Int64 parse_numeric (coluna df "ano" raw))
    (canonizar_mes (coluna df "mes" raw))
    (fillna desconhecido (coluna df "segmento" raw))
    (fillna desconhecido (coluna df "ds_canal" raw))
    (fillna desconhecido (coluna df "natureza" raw))
    (fillna desconhecido (coluna df "motivo" raw))
    (if str_in "fato_gerador_fato_gerador" (columns df)
     then coluna df "fato_gerador_fato_gerador" raw
     else desconhecido).

(** ** A small input table *)

Definition txt (s : string) : cell := Some (Str s).
Definition num (z : Z) : cell := Some (Int z).

(** A parser that recognises no string; the example table holds its years
    as numbers. *)
Definition sem_parser : string -> option float64 := fun _ => None.

Definition tabela_exemplo : DataFrame :=
  mkDF [ "Ano"; "Mes"; "Segmento"; "DS_Canal"; "Natureza"; "Motivo";
         "fato_gerador_fato_gerador" ]
       [ [ num 2025; txt "jan"; txt "Varejo"; txt "Procon"; txt "Cobranca";
           txt "Juros"; None ];
         [ num 2025; txt "Janeiro"; txt "Empresas"; txt "Procon"; txt "Cadastro";
           txt "Endereco"; txt "Sistema" ];
         [ num 2024; txt "dez"; txt "Varejo"; txt "Procon"; txt "Cobranca";
           txt "Juros"; txt "Sistema" ];
         [ num 2024; txt "dez"; txt "Varejo"; txt "Procon"; txt "Cobranca";
           txt "Multa"; txt "Sistema" ];
         [ num 2024; txt " DEZEMBRO "; txt "Varejo"; txt "Ouvidoria"; txt "Cobranca";
           txt "Multa"; txt "Sistema" ];
         [ num 2024; txt "xyz"; txt "Varejo"; txt "Procon"; txt "Cobranca";
           txt "Multa"; txt "Sistema" ] ].

(** The normalised frame of the example, as [processar_dados] returns it. *)
Definition df_exemplo : list registro :=
  Eval vm_compute in
    match fst (processar_dados sem_parser tabela_exemplo []) with
    | inr df => registros df
    | inl _ => []
    end.


(** [passo df df' g f]: the rows of [df'] are the rows of [df] through
    [g], and the cell that [df'] has under a name is [f] of the cell that
    [df] has under it. *)
Definition passo (df df' : DataFrame) (g : list cell -> list cell)
    (f : string -> cell -> cell) : Prop :=
  rows df' = map g (rows df) /\
  forall r, List.length r = List.length (columns df) ->
    List.length (g r) = List.length (columns df') /\
    forall name, coluna df' name (g r) = f name (coluna df name r).


(** The frame that the body of [processar_dados] returns on the example. *)
Definition quadro_exemplo : DataFrame :=
  Eval vm_compute in
    match processar_dados_corpo sem_parser tabela_exemplo with
    | inr df => df
    | inl _ => DataFrame_vazio
    end.


(** ** The rest of the report *)

(** Line 81: [sorted(df['ano'].dropna().unique(), reverse=True)]. Python
    cannot order a number and a text. *)
Definition anos_disponiveis (df : list registro) : res (list valor) :=
  let anos := unique (dropna_valores (map ano df)) in
  if mesmo_tipo anos then ret (ordenar (fun a b => valor_leb b a) anos)
  else raise TypeError.

(** Line 114: the colour of the bar of the current month. *)
Definition color_atual (df_atual df_anterior : list registro) : string :=
  let var_diff := len df_atual - len df_anterior in
  if var_diff >? 0 then "#f44336"
  else if var_diff <? 0 then "#4CAF50"
  else "gray".

Definition soma (l : list Z) : Z := fold_right Z.add 0 l.

(** [col.value_counts(normalize=True)]: each count divided by the sum of
    the counts. *)
Definition value_counts_normalize (col : list cell) : list (valor * Q) :=
  let counts := value_counts col in
  let total := soma (map snd counts) in
  map (fun kv => (fst kv, (inject_Z (snd kv) / inject_Z total)%Q)) counts.

(** Line 106. *)
Definition segmento_contagem (df_atual : list registro) : list (valor * Q) :=
  map (fun kv => (fst kv, (snd kv * 100)%Q))
      (value_counts_normalize (map segmento df_atual)).

Definition maior (best kv : valor * Q) : valor * Q :=
  if Qltb (snd best) (snd kv) then kv else best.

(** [s.idxmax()] with [s.max()]: the first label that carries the largest
    value, and that value. *)
Definition idxmax_max (s : list (valor * Q)) : option (valor * Q) :=
  match s with
  | [] => None
  | kv :: s' => Some (fold_left maior s' kv)
  end.

(** Lines 107-111: the segment named under "Impacto Geral" and its
    share; [None] when nothing is written. *)
Definition impacto_geral (df_atual : list registro) : option (valor * Q) :=
  idxmax_max (segmento_contagem df_atual).


(** A table with the two mandatory columns only, and its normalised frame. *)
Definition tabela_minima : DataFrame :=
  mkDF ["Ano"; " MES "] [[num 2025; txt "jan"]; [None; txt "fev"]].

Definition quadro_minimo : DataFrame :=
  Eval vm_compute in
    match processar_dados_corpo sem_parser tabela_minima with
    | inr df => df
    | inl _ => DataFrame_vazio
    end.


(** A year cell that line 36 converts without raising. *)
Definition ano_aceito (parse_numeric : string -> option float64) (c : cell) : bool :=
  match to_numeric parse_numeric c with
  | Some v => integral v && em_Int64 v
  | None => true
  end.

(** A parser that knows one number with a fractional part. *)
Definition parser_fracao : string -> option float64 :=
  fun s => if String.eqb s "2024.5" then Some (Finito (4049 # 2)) else None.


(** The share of [c] in [n], as a percentage. *)
Definition parcela_de (c n : Z) : Q := (inject_Z c / inject_Z n * 100)%Q.

(** The whole numbers among a list of values. *)
Fixpoint inteiros (l : list valor) : list Z :=
  match l with
  | [] => []
  | Int z :: l' => z :: inteiros l'
  | Str _ :: l' => inteiros l'
  end.

(** ** Results on the variation calculator *)

Lemma analisar_variacao_referencia_positiva (a b : Z) :
  b <> 0 ->
  analisar_variacao a b =
    inr (percentual a b, if Qgtb (percentual a b) 0 then 1 else -1).
Proof.
  intros Hb. unfold analisar_variacao, truediv, percentual.
  destruct (Z.eqb_spec b 0) as [E | _]; [contradiction | reflexivity].
Qed.

(** The calculator on exact rationals never reaches the division by
    zero. *)
Lemma analisar_variacao_total (a b : Z) :
  exists p d, analisar_variacao a b = inr (p, d).
Proof.
  destruct (Z.eq_dec b 0) as [-> | Hb].
  - unfold analisar_variacao. simpl. destruct (a =? 0); eauto.
  - rewrite analisar_variacao_referencia_positiva by assumption. eauto.
Qed.

(** C3. With equal, non-zero counts the percentage is zero and the
    direction returned is -1: the conditional of line 14 has no case for a
    zero percentage. Evaluated at (5, 5). *)
Theorem analisar_variacao_contagens_iguais :
  analisar_variacao 5 5 = inr (percentual 5 5, -1) /\ (percentual 5 5 == 0)%Q.
Proof.
  split; reflexivity.
Qed.

Lemma percentual_sinal (a b : Z) :
  0 < b -> ((percentual a b ?= 0)%Q = (a ?= b)).
Proof.
  intros Hb. unfold percentual, Qcompare, Qdiv, Qmult, Qinv, inject_Z.
  destruct b as [| pb | pb]; try lia. simpl.
  rewrite !Z.mul_1_r.
  destruct (Z.compare_spec a (Z.pos pb)); 
    [ apply Z.compare_eq_iff | apply Z.compare_lt_iff | apply Z.compare_gt_iff ]; nia.
Qed.

Lemma analisar_variacao_direcao (a b : Z) :
  0 < b ->
  analisar_variacao a b = inr (percentual a b, if a >? b then 1 else -1).
Proof.
  intros Hb. rewrite analisar_variacao_referencia_positiva by lia.
  unfold Qgtb. rewrite percentual_sinal by assumption.
  unfold Z.gtb. destruct (a ?= b); reflexivity.
Qed.

(** ** Results on the variation calculator on arbitrary integers *)

Lemma meio_par_limites (n d : Z) :
  0 <= n -> 0 < d -> 0 <= meio_par n d /\ meio_par n d * d <= n + d.
Proof.
  intros Hn Hd. unfold meio_par.
  pose proof (Z.div_pos n d Hn Hd) as Hq.
  pose proof (Z.mul_div_le n d Hd) as Hm.
  destruct (2 * (n mod d) <? d); [| destruct (d <? 2 * (n mod d));
    [| destruct (Z.even (n / d))]]; nia.
Qed.

Lemma expoente_log2 (x : Q) : expoente x <= Z.log2 (Qnum x).
Proof.
  unfold expoente.
  pose proof (Z.log2_nonneg (Z.pos (Qden x))).
  destruct (if 0 <=? _ then _ else _); lia.
Qed.

Lemma potencia_log2 (n u : Z) : 0 < n -> 0 <= u -> u <= Z.log2 n -> 2 ^ u <= n.
Proof.
  intros Hn Hu Hl.
  pose proof (Z.log2_spec n Hn) as [H _].
  pose proof (Z.pow_le_mono_r 2 u (Z.log2 n)). lia.
Qed.

Lemma arredondar_positivo_limites (x : Q) :
  0 < Qnum x ->
  (0 <= arredondar_positivo x)%Q /\
  (arredondar_positivo x <= inject_Z (2 * Qnum x + 1))%Q.
Proof.
  intros Hn. unfold arredondar_positivo, escalar.
  pose proof (expoente_log2 x) as He.
  set (u := Z.max (expoente x - 52) (-1074)) in *.
  destruct (Z.leb_spec 0 u) as [Hu | Hu].
  - assert (Hp : 2 ^ u <= Qnum x) by (apply potencia_log2; lia).
    assert (Hp0 : 0 < 2 ^ u) by (apply Z.pow_pos_nonneg; lia).
    destruct (meio_par_limites (Qnum x) (Z.pos (Qden x) * 2 ^ u)) as [H0 H1];
      [lia | nia |].
    unfold Qle, inject_Z. cbn [Qnum Qden]. split; nia.
  - assert (Hp0 : 0 < 2 ^ (- u)) by (apply Z.pow_pos_nonneg; lia).
    destruct (meio_par_limites (Qnum x * 2 ^ (- u)) (Z.pos (Qden x))) as [H0 H1];
      [nia | lia |].
    unfold Qle, inject_Z. cbn [Qnum Qden]. rewrite Z2Pos.id by assumption.
    split; nia.
Qed.

Lemma arredondar_limites (x : Q) :
  (Qabs (arredondar x) <= inject_Z (2 * Z.abs (Qnum x) + 1))%Q.
Proof.
  unfold arredondar. destruct x as [n d]. cbn [Qnum].
  destruct n as [| p | p].
  - now vm_compute.
  - destruct (arredondar_positivo_limites (Z.pos p # d)) as [H0 H1]; [reflexivity |].
    rewrite Qabs_pos by assumption. exact H1.
  - destruct (arredondar_positivo_limites (- (Z.neg p # d))) as [H0 H1]; [reflexivity |].
    rewrite Qabs_opp, Qabs_pos by assumption. exact H1.
Qed.

Lemma transborda_false (x : Q) (B : Z) :
  (Qabs x <= inject_Z B)%Q -> B < limite -> transborda x = false.
Proof.
  intros Hx HB. unfold transborda.
  destruct (Qle_bool _ _) eqn:E; [| reflexivity].
  apply Qle_bool_iff in E.
  pose proof (Qle_trans _ _ _ E Hx) as H.
  rewrite <- Zle_Qle in H. lia.
Qed.

Lemma Qabs_quociente (a b : Z) :
  0 < b -> (Qabs (inject_Z a / inject_Z b) <= inject_Z (Z.abs a))%Q.
Proof.
  intros Hb. destruct b as [| p | p]; try lia.
  unfold Qdiv, Qinv, Qmult, Qabs, Qle, inject_Z. cbn [Qnum Qden].
  rewrite Z.mul_1_r. nia.
Qed.

Lemma Qnum_quociente (a b : Z) :
  0 < b -> Qnum (inject_Z a / inject_Z b) = a.
Proof.
  intros Hb. destruct b as [| p | p]; try lia.
  unfold Qdiv, Qinv, Qmult, inject_Z. cbn [Qnum Qden]. lia.
Qed.

Lemma truediv_int_limites (a b : Z) :
  0 < b -> Z.abs a < limite ->
  exists r, truediv_int a b = inr (Finito r) /\
            (Qabs r <= inject_Z (2 * Z.abs a + 1))%Q.
Proof.
  intros Hb Ha. unfold truediv_int.
  destruct (Z.eqb_spec b 0) as [-> | _]; [lia |].
  rewrite (transborda_false _ (Z.abs a)) by (try apply Qabs_quociente; assumption).
  eexists. split; [reflexivity |].
  pose proof (arredondar_limites (inject_Z a / inject_Z b)) as H.
  now rewrite Qnum_quociente in H.
Qed.

Lemma vezes_100_finito (r : Q) (B : Z) :
  (Qabs r <= inject_Z B)%Q -> B * 100 < limite ->
  exists p, vezes_100 (Finito r) = Finito p.
Proof.
  intros Hr HB. unfold vezes_100.
  rewrite (transborda_false _ (B * 100)); [eauto | | assumption].
  rewrite Qabs_Qmult, inject_Z_mult.
  apply Qmult_le_compat_r; [exact Hr | now vm_compute].
Qed.

Lemma limite_contagens : (2 * 10 ^ 300 + 1) * 100 < limite.
Proof. now vm_compute. Qed.

Lemma expoente_correto (x : Q) :
  0 < Qnum x ->
  (0 <= expoente x -> Z.pos (Qden x) * 2 ^ expoente x <= Qnum x) /\
  (expoente x < 0 -> Z.pos (Qden x) <= Qnum x * 2 ^ (- expoente x)).
Proof.
  intros Hn. unfold expoente.
  set (n := Qnum x) in *. set (d := Z.pos (Qden x)).
  assert (Hd : 0 < d) by reflexivity.
  pose proof (Z.log2_spec n Hn) as [Hn1 _].
  pose proof (Z.log2_spec d Hd) as [_ Hd2].
  pose proof (Z.log2_nonneg n) as Hln. pose proof (Z.log2_nonneg d) as Hld.
  set (ln := Z.log2 n) in *. set (ld := Z.log2 d) in *.
  destruct (Z.leb_spec 0 (ln - ld)) as [He | He].
  - destruct (Z.leb_spec (2 ^ (ln - ld) * d) n) as [Ht | Ht].
    + split; intros; lia.
    + split; intros H.
      * assert (E : 2 ^ ln = 2 ^ (Z.succ ld) * 2 ^ (ln - ld - 1)).
        { rewrite <- Z.pow_add_r by lia. f_equal. lia. }
        assert (0 <= 2 ^ (ln - ld - 1)) by (apply Z.pow_nonneg; lia).
        nia.
      * assert (E : ln - ld = 0) by lia.
        replace (- (ln - ld - 1)) with 1 by lia.
        replace ln with ld in * by lia.
        rewrite Z.pow_succ_r in Hd2 by lia. change (2 ^ 1) with 2. lia.
  - destruct (Z.leb_spec d (n * 2 ^ (- (ln - ld)))) as [Ht | Ht].
    + split; intros; lia.
    + split; intros H; [lia |].
      assert (E : 2 ^ (Z.succ ld) = 2 ^ ln * 2 ^ (- (ln - ld - 1))).
      { rewrite <- Z.pow_add_r by lia. f_equal. lia. }
      assert (0 <= 2 ^ (- (ln - ld - 1))) by (apply Z.pow_nonneg; lia).
      nia.
Qed.

Lemma meio_par_inf (n d : Z) : 0 < d -> d <= n -> 1 <= meio_par n d.
Proof.
  intros Hd Hn. unfold meio_par.
  assert (1 <= n / d) by (apply Z.div_le_lower_bound; lia).
  destruct (2 * (n mod d) <? d); [| destruct (d <? 2 * (n mod d));
    [| destruct (Z.even (n / d))]]; lia.
Qed.

Lemma arredondar_positivo_minimo (x : Q) :
  0 < Qnum x -> (minimo <= x)%Q -> (minimo <= arredondar_positivo x)%Q.
Proof.
  intros Hn Hx. unfold arredondar_positivo, escalar.
  destruct (expoente_correto x Hn) as [He1 He2].
  assert (Hmin : Z.pos (Qden x) <= Qnum x * 2 ^ 1074).
  { unfold minimo, Qle in Hx. cbn [Qnum Qden] in Hx.
    rewrite Z2Pos.id in Hx by now vm_compute. lia. }
  set (e := expoente x) in *. set (n := Qnum x) in *. set (d := Z.pos (Qden x)) in *.
  assert (Hd : 0 < d) by reflexivity.
  set (K := 2 ^ 1074) in *. assert (HK : 0 < K) by now vm_compute.
  unfold minimo. fold K.
  destruct (Z.max_spec (e - 52) (-1074)) as [[Hlt ->] | [Hge ->]].
  - (* u = -1074 *)
    change (0 <=? -1074) with false. cbv iota.
    change (- -1074) with 1074. fold K.
    pose proof (meio_par_inf (n * K) d Hd Hmin) as Hm.
    unfold Qle. cbn [Qnum Qden]. nia.
  - destruct (Z.leb_spec 0 (e - 52)) as [Hu | Hu].
    + assert (Hp : 2 ^ (e - 52) <= 2 ^ e) by (apply Z.pow_le_mono_r; lia).
      assert (Hp0 : 0 < 2 ^ (e - 52)) by (apply Z.pow_pos_nonneg; lia).
      assert (Hm : 1 <= meio_par n (d * 2 ^ (e - 52))).
      { apply meio_par_inf; [nia |]. specialize (He1 ltac:(lia)). nia. }
      unfold Qle, inject_Z. cbn [Qnum Qden]. rewrite Z2Pos.id by assumption. nia.
    + assert (Hp0 : 0 < 2 ^ (- (e - 52))) by (apply Z.pow_pos_nonneg; lia).
      assert (Hp1 : 2 ^ (- (e - 52)) <= K).
      { unfold K. apply Z.pow_le_mono_r; lia. }
      assert (Hm : 1 <= meio_par (n * 2 ^ (- (e - 52))) d).
      { apply meio_par_inf; [assumption |].
        destruct (Z.leb_spec 0 e) as [H0 | H0].
        - specialize (He1 H0).
          assert (0 < 2 ^ e) by (apply Z.pow_pos_nonneg; lia).
          nia.
        - specialize (He2 H0).
          assert (2 ^ (- e) <= 2 ^ (- (e - 52))) by (apply Z.pow_le_mono_r; lia).
          nia. }
      unfold Qle. cbn [Qnum Qden]. rewrite !Z2Pos.id by assumption. nia.
Qed.

Lemma arredondar_minimo (x : Q) : (minimo <= x)%Q -> (minimo <= arredondar x)%Q.
Proof.
  intros Hx.
  assert (Hn : 0 < Qnum x).
  { unfold minimo, Qle in Hx. cbn [Qnum Qden] in Hx.
    assert (0 < 2 ^ 1074) by now vm_compute. nia. }
  pose proof (arredondar_positivo_minimo x Hn Hx) as H.
  unfold arredondar. destruct (Qnum x); [lia | exact H | lia].
Qed.

Lemma arredondar_nao_positivo (x : Q) : (x <= 0)%Q -> (arredondar x <= 0)%Q.
Proof.
  intros Hx. unfold arredondar. destruct x as [n d]. cbn [Qnum].
  destruct n as [| p | p].
  - apply Qle_refl.
  - unfold Qle in Hx. cbn in Hx. lia.
  - destruct (arredondar_positivo_limites (- (Z.neg p # d))) as [H0 _]; [reflexivity |].
    apply Qopp_le_compat in H0. exact H0.
Qed.

Lemma truediv_int_valor (a b : Z) :
  0 < b -> Z.abs a < limite ->
  truediv_int a b = inr (Finito (arredondar (inject_Z a / inject_Z b))).
Proof.
  intros Hb Ha. unfold truediv_int.
  destruct (Z.eqb_spec b 0) as [-> | _]; [lia |].
  now rewrite (transborda_false _ (Z.abs a)) by (try apply Qabs_quociente; assumption).
Qed.

Lemma vezes_100_valor (r : Q) (B : Z) :
  (Qabs r <= inject_Z B)%Q -> B * 100 < limite ->
  vezes_100 (Finito r) = Finito (arredondar (r * 100)).
Proof.
  intros Hr HB. unfold vezes_100.
  rewrite (transborda_false _ (B * 100)); [reflexivity | | assumption].
  rewrite Qabs_Qmult, inject_Z_mult.
  apply Qmult_le_compat_r; [exact Hr | now vm_compute].
Qed.

Lemma Qgtb_minimo (v : Q) : (minimo <= v)%Q -> Qgtb v 0 = true.
Proof.
  intros H. unfold Qgtb.
  assert (L : (0 < v)%Q) by (eapply Qlt_le_trans; [| exact H]; reflexivity).
  apply Qgt_alt in L. now rewrite L.
Qed.

Lemma Qgtb_nao_positivo (v : Q) : (v <= 0)%Q -> Qgtb v 0 = false.
Proof.
  intros H. unfold Qgtb. destruct (v ?= 0)%Q eqn:E; try reflexivity.
  apply Qgt_alt in E. exfalso. apply (Qlt_not_le _ _ E H).
Qed.

Lemma limite_minimo : 10 ^ 300 < 2 ^ 1074.
Proof. now vm_compute. Qed.

Lemma analisar_variacao_float_contagens_valor (a b : Z) :
  0 <= a < 10 ^ 300 -> 0 < b < 10 ^ 300 ->
  analisar_variacao_float a b =
    inr (Finito (arredondar (arredondar (inject_Z (a - b) / inject_Z b) * 100)),
         if a >? b then 1 else -1).
Proof.
  intros Ha Hb. unfold analisar_variacao_float.
  pose proof limite_contagens as HL. pose proof limite_minimo as HK.
  set (N := 10 ^ 300) in *.
  destruct (Z.eqb_spec b 0) as [-> | _]; [lia |].
  rewrite truediv_int_valor by lia. unfold bind, ret.
  set (q := (inject_Z (a - b) / inject_Z b)%Q).
  pose proof (arredondar_limites q) as Hr.
  unfold q in Hr at 2. rewrite Qnum_quociente in Hr by lia.
  rewrite (vezes_100_valor _ _ Hr) by lia.
  cbn [positivo]. do 2 f_equal.
  destruct (Z.gtb_spec a b) as [Hab | Hab].
  - rewrite Qgtb_minimo; [reflexivity |].
    apply arredondar_minimo.
    apply Qle_trans with (arredondar q).
    + apply arredondar_minimo. unfold q, minimo.
      destruct b as [| p | p]; try lia.
      unfold Qdiv, Qinv, Qmult, Qle, inject_Z. cbn [Qnum Qden].
      rewrite Z2Pos.id by now vm_compute.
      set (K := 2 ^ 1074) in *. nia.
    + assert (H0 : (0 <= arredondar q)%Q).
      { apply Qle_trans with minimo; [discriminate |].
        apply arredondar_minimo. unfold q, minimo.
        destruct b as [| p | p]; try lia.
        unfold Qdiv, Qinv, Qmult, Qle, inject_Z. cbn [Qnum Qden].
        rewrite Z2Pos.id by now vm_compute.
        set (K := 2 ^ 1074) in *. nia. }
      unfold Qle, Qmult in *. cbn [Qnum Qden] in *. nia.
  - rewrite Qgtb_nao_positivo; [reflexivity |].
    apply arredondar_nao_positivo.
    assert (H0 : (arredondar q <= 0)%Q).
    { apply arredondar_nao_positivo. unfold q.
      destruct b as [| p | p]; try lia.
      unfold Qdiv, Qinv, Qmult, Qle, inject_Z. cbn [Qnum Qden]. nia. }
    unfold Qle, Qmult in *. cbn [Qnum Qden] in *. nia.
Qed.

(** The counts 4 and 3 give the float that Python prints as
    33.33333333333333, where the exact percentage is 100/3. *)
Lemma analisar_variacao_float_exemplo :
  analisar_variacao_float 4 3 =
    inr (Finito (4691249611844266 # 140737488355328), 1) /\
  analisar_variacao 4 3 = inr (((1 # 3) * 100)%Q, 1).
Proof. split; reflexivity. Qed.

(** On counts the two calculators agree: neither raises and both return
    the same direction; by [analisar_variacao_float_contagens_valor] the
    percentage of the second is the percentage of the first with the
    quotient and the product rounded. *)
Lemma analisar_variacao_float_mesma_direcao (a b : Z) :
  0 <= a < 10 ^ 300 -> 0 <= b < 10 ^ 300 ->
  exists p p' d,
    analisar_variacao a b = inr (p, d) /\
    analisar_variacao_float a b = inr (Finito p', d).
Proof.
  intros Ha Hb. destruct (Z.eq_dec b 0) as [-> | Hb0].
  - unfold analisar_variacao, analisar_variacao_float. simpl.
    destruct (a =? 0); eauto.
  - rewrite analisar_variacao_direcao by lia.
    rewrite analisar_variacao_float_contagens_valor by lia. eauto.
Qed.

Lemma analisar_variacao_float_excecao (a b : Z) (e : exc) :
  analisar_variacao_float a b = inl e -> e = OverflowError.
Proof.
  unfold analisar_variacao_float, truediv_int.
  destruct (Z.eqb_spec b 0) as [-> | Hb].
  - destruct (a =? 0); discriminate.
  - destruct (transborda _); simpl; [congruence | discriminate].
Qed.

(** C2, as the claim states it, fails: the reference count 1 and the
    current count 10^400 make the division of line 13 raise
    [OverflowError], and the current count 2 * 10^306 makes the percentage
    infinite. *)
Lemma analisar_variacao_inteiros_grandes_contra :
  analisar_variacao_float (10 ^ 400) 1 = inl OverflowError /\
  analisar_variacao_float (2 * 10 ^ 306) 1 = inr (Infinito false, 1).
Proof. split; now vm_compute. Qed.

(** C2, amended. For every two non-negative integers below 10^300, which
    every count of records is, the variation calculator returns a finite
    percentage; on (0, 0) it returns (0, 0); on (c, 0) with c > 0 it
    returns (100.0, +1) whatever c is; the division by zero is never
    reached: the only exception that larger integers can raise is the
    [OverflowError] of the division. *)
Theorem analisar_variacao_finita_em_contagens :
  (forall a b, 0 <= a < 10 ^ 300 -> 0 <= b < 10 ^ 300 ->
     exists p d, analisar_variacao_float a b = inr (Finito p, d)) /\
  analisar_variacao_float 0 0 = inr (Finito 0, 0) /\
  (forall c, 0 < c -> analisar_variacao_float c 0 = inr (Finito 100, 1)) /\
  (forall a b e, analisar_variacao_float a b = inl e -> e = OverflowError).
Proof.
  split; [| split; [| split]].
  - intros a b Ha Hb. unfold analisar_variacao_float.
    pose proof limite_contagens as HL.
    set (N := 10 ^ 300) in *.
    destruct (Z.eqb_spec b 0) as [-> | Hb0].
    + destruct (a =? 0); eauto.
    + destruct (truediv_int_limites (a - b) b) as [r [-> Hr]]; [lia | lia |].
      unfold bind, ret.
      destruct (vezes_100_finito r (2 * Z.abs (a - b) + 1) Hr) as [p ->]; [lia |].
      eauto.
  - reflexivity.
  - intros c Hc. unfold analisar_variacao_float. simpl.
    destruct (Z.eqb_spec c 0); [lia | reflexivity].
  - apply analisar_variacao_float_excecao.
Qed.

Lemma analisar_variacao_finita_em_contagens_witness :
  (exists p d, analisar_variacao_float 3 2 = inr (Finito p, d)) /\
  analisar_variacao_float 7 0 = inr (Finito 100, 1).
Proof.
  split.
  - apply (proj1 analisar_variacao_finita_em_contagens 3 2);
      split; [lia | reflexivity | lia | reflexivity].
  - apply (proj1 (proj2 (proj2 analisar_variacao_finita_em_contagens)) 7). lia.
Defined.

(** ** Results on the general summary *)

Lemma variacao_total (df_atual df_anterior : list registro) :
  exists q, variacao df_atual df_anterior = inr q.
Proof.
  unfold variacao, truediv.
  destruct (len df_anterior =? 0); simpl; eauto.
Qed.

(** C4, as the claim states it, fails: with one record in the current
    period and none in the reference period the summary shows 0, not the
    100.0 of the variation calculator. *)
Lemma variacao_referencia_vazia_contra :
  periodo df_exemplo "janeiro" 2023 = [] /\
  periodo df_exemplo "janeiro" 2025 <> [] /\
  ~ (exists q, variacao (periodo df_exemplo "janeiro" 2025)
                        (periodo df_exemplo "janeiro" 2023) = inr q /\
               (q == 100)%Q).
Proof.
  split; [now vm_compute | split; [now vm_compute |]].
  intros [q [H E]]. vm_compute in H. injection H as <-. discriminate E.
Qed.

(** C4, amended. When the reference period has no record the general
    summary shows the percentage 0 (the guard of line 98), and no
    exception is raised. *)
Theorem variacao_referencia_vazia
    (df : list registro) (mes_atual : string) (ano_atual : Z)
    (mes_anterior : string) (ano_anterior : Z) :
  periodo df mes_anterior ano_anterior = [] ->
  variacao (periodo df mes_atual ano_atual) (periodo df mes_anterior ano_anterior)
    = inr 0%Q.
Proof.
  intros ->. reflexivity.
Qed.

Lemma variacao_referencia_vazia_witness :
  variacao (periodo df_exemplo "janeiro" 2025) (periodo df_exemplo "janeiro" 2023)
    = inr 0%Q.
Proof.
  apply (variacao_referencia_vazia df_exemplo "janeiro" 2025 "janeiro" 2023).
  reflexivity.
Defined.

(** ** Results on normalisation: exceptions *)

Lemma processar_dados_casos (parse_numeric : string -> option float64)
    (t : DataFrame) (out : list evento) :
  processar_dados parse_numeric t out =
    match processar_dados_corpo parse_numeric t with
    | inr df => (inr df, out)
    | inl e => (inr DataFrame_vazio,
                (out ++ [st_error_ev "Erro no processamento: " e])%list)
    end.
Proof.
  unfold processar_dados, try_except, lift, ui_bind, st_error, ui_ret.
  destruct (processar_dados_corpo parse_numeric t); reflexivity.
Qed.

Lemma posicoes_desde_ausente (name : string) (cols : list string) (i : nat) :
  str_in name cols = false -> posicoes_desde i name cols = [].
Proof.
  revert i. induction cols as [| c cols IH]; intros i H; [reflexivity |].
  simpl in *. apply orb_false_iff in H as [H1 H2].
  rewrite String.eqb_sym, H1. auto.
Qed.

(** C10. [processar_dados] always returns a frame, never an exception; when
    its body raises, and in particular when the table has no year column
    or no month column, it writes one error message and returns the empty
    frame. *)
Theorem processar_dados_nao_propaga (parse_numeric : string -> option float64)
    (t : DataFrame) (out : list evento) :
  (exists df out', processar_dados parse_numeric t out = (inr df, out')) /\
  (forall e, processar_dados_corpo parse_numeric t = inl e ->
     processar_dados parse_numeric t out =
       (inr DataFrame_vazio,
        (out ++ [st_error_ev "Erro no processamento: " e])%list)) /\
  (str_in "ano" (normalizar_colunas (columns t)) = false \/
   str_in "mes" (normalizar_colunas (columns t)) = false ->
   exists e, processar_dados parse_numeric t out =
             (inr DataFrame_vazio,
              (out ++ [st_error_ev "Erro no processamento: " e])%list)).
Proof.
  rewrite processar_dados_casos. split; [| split].
  - destruct (processar_dados_corpo parse_numeric t); eauto.
  - now intros e ->.
  - intros H.
    assert (E : exists e, processar_dados_corpo parse_numeric t = inl e).
    { unfold processar_dados_corpo, getitem at 1. simpl.
      destruct H as [H | H].
      - unfold posicoes. rewrite posicoes_desde_ausente by assumption.
        simpl. eauto.
      - destruct (posicoes "ano" (normalizar_colunas (columns t))) as [| i [| j l]] eqn:Ea;
          simpl; eauto.
        + destruct (astype_Int64 _); simpl; eauto.
          unfold getitem, setitem. simpl. rewrite Ea. simpl.
          unfold posicoes. rewrite posicoes_desde_ausente by assumption. simpl. eauto. }
    destruct E as [e ->]. eauto.
Qed.

Lemma processar_dados_nao_propaga_witness :
  exists e, processar_dados sem_parser (mkDF ["segmento"] [[txt "Varejo"]]) [] =
            (inr DataFrame_vazio, [st_error_ev "Erro no processamento: " e]).
Proof.
  apply (proj2 (proj2 (processar_dados_nao_propaga sem_parser
                         (mkDF ["segmento"] [[txt "Varejo"]]) []))).
  left. reflexivity.
Defined.

(** ** Results on the pandas operations *)

Lemma valor_eqb_eq (a b : valor) : valor_eqb a b = true <-> a = b.
Proof.
  destruct a as [x | x], b as [y | y]; simpl; split; intros H;
    try discriminate; try (injection H as ->).
  - apply Z.eqb_eq in H. now subst.
  - apply Z.eqb_refl.
  - apply String.eqb_eq in H. now subst.
  - apply String.eqb_refl.
Qed.

Lemma valor_eqb_refl (a : valor) : valor_eqb a a = true.
Proof. now apply valor_eqb_eq. Qed.

Lemma valor_eqb_neq (a b : valor) : valor_eqb a b = false <-> a <> b.
Proof.
  split.
  - intros H E. apply valor_eqb_eq in E. congruence.
  - intros H. destruct (valor_eqb a b) eqn:E; [| reflexivity].
    apply valor_eqb_eq in E. contradiction.
Qed.

Lemma cell_eqb_Some (c : cell) (k : valor) : cell_eqb c (Some k) = true <-> c = Some k.
Proof.
  destruct c as [v |]; simpl.
  - rewrite valor_eqb_eq. split; [now intros -> | now intros [= ->]].
  - split; discriminate.
Qed.

Section Ordenacao.

Context {A : Type} (leb : A -> A -> bool).

Lemma inserir_perm (x : A) (l : list A) : Permutation (inserir leb x l) (x :: l).
Proof.
  induction l as [| y l IH]; simpl; [reflexivity |].
  destruct (leb x y); [reflexivity |].
  rewrite IH. apply perm_swap.
Qed.

Lemma ordenar_perm (l : list A) : Permutation (ordenar leb l) l.
Proof.
  induction l as [| x l IH]; simpl; [reflexivity |].
  rewrite inserir_perm. now constructor.
Qed.

Lemma ordenar_In (l : list A) (x : A) : In x (ordenar leb l) <-> In x l.
Proof.
  split; apply Permutation_in; [| symmetry]; apply ordenar_perm.
Qed.

Hypothesis leb_total : forall a b, leb a b = false -> leb b a = true.

Let le (a b : A) : Prop := leb a b = true.

Lemma inserir_sorted (x : A) (l : list A) :
  Sorted le l -> Sorted le (inserir leb x l).
Proof.
  induction l as [| y l IH]; simpl; intros Hs.
  - repeat constructor.
  - destruct (leb x y) eqn:E.
    + constructor; [assumption | constructor; exact E].
    + inversion Hs as [| ? ? Hs' Hhd]; subst.
      constructor; [auto |].
      destruct l as [| z l]; simpl.
      * constructor. now apply leb_total.
      * destruct (leb x z); constructor.
        -- now apply leb_total.
        -- now inversion Hhd.
Qed.

Lemma ordenar_sorted (l : list A) : Sorted le (ordenar leb l).
Proof.
  induction l as [| x l IH]; simpl; [constructor | now apply inserir_sorted].
Qed.

End Ordenacao.

Section Ordenados.

Context {A : Type} (R : A -> A -> Prop).

Lemma firstn_In (n : nat) (l : list A) (x : A) : In x (firstn n l) -> In x l.
Proof.
  revert n. induction l as [| y l IH]; intros [| n]; simpl; try tauto.
  intros [H | H]; [now left | right; eauto].
Qed.

Lemma StronglySorted_firstn (n : nat) (l : list A) :
  StronglySorted R l -> StronglySorted R (firstn n l).
Proof.
  revert n. induction l as [| x l IH]; intros [| n] Hs; simpl; try constructor.
  - apply IH. now inversion Hs.
  - inversion Hs as [| ? ? _ Hall]; subst.
    rewrite Forall_forall in *. intros y Hy. apply Hall.
    eapply firstn_In; eassumption.
Qed.

Lemma StronglySorted_filter (f : A -> bool) (l : list A) :
  StronglySorted R l -> StronglySorted R (filter f l).
Proof.
  induction 1 as [| x l Hs IH Hall]; simpl; [constructor |].
  destruct (f x); [| assumption].
  constructor; [assumption |].
  rewrite Forall_forall in *. intros y Hy. apply Hall.
  now apply filter_In in Hy.
Qed.

End Ordenados.

Lemma StronglySorted_map {A B} (R : B -> B -> Prop) (f : A -> B) (l : list A) :
  StronglySorted (fun a b => R (f a) (f b)) l -> StronglySorted R (map f l).
Proof.
  induction 1 as [| x l Hs IH Hall]; simpl; constructor; [assumption |].
  rewrite Forall_forall in *. intros y Hy.
  apply in_map_iff in Hy as [a [<- Ha]]. auto.
Qed.

Lemma Sorted_impl {A} (R R' : A -> A -> Prop) (l : list A) :
  (forall a b, R a b -> R' a b) -> Sorted R l -> Sorted R' l.
Proof.
  intros HR. induction 1 as [| a l Hs IH Hhd]; constructor; [assumption |].
  destruct Hhd; constructor. auto.
Qed.

Lemma ordenar_crescente (s : Serie) :
  StronglySorted (fun a b => snd a <= snd b)
                 (ordenar (fun a b => snd a <=? snd b) s).
Proof.
  apply Sorted_StronglySorted.
  - intros a b c Hab Hbc. lia.
  - eapply Sorted_impl; [| apply ordenar_sorted].
    + intros a b H. simpl in H. now apply Z.leb_le.
    + intros a b H. simpl in *. apply Z.leb_gt in H. apply Z.leb_le. lia.
Qed.

Lemma ordenar_decrescente (s : Serie) :
  StronglySorted (fun a b => snd a >= snd b)
                 (ordenar (fun a b => snd b <=? snd a) s).
Proof.
  apply Sorted_StronglySorted.
  - intros a b c Hab Hbc. lia.
  - eapply Sorted_impl; [| apply ordenar_sorted].
    + intros a b H. simpl in H. apply Z.leb_le in H. lia.
    + intros a b H. simpl in *. apply Z.leb_gt in H. apply Z.leb_le. lia.
Qed.

Lemma filter_length_le {A} (f : A -> bool) (l : list A) :
  (List.length (filter f l) <= List.length l)%nat.
Proof.
  induction l as [| x l IH]; simpl; [lia |]. destruct (f x); simpl; lia.
Qed.

Lemma reducoes_spec (s : Serie) :
  (List.length (reducoes s) <= 5)%nat /\
  Forall (fun z => z < 0) (map snd (reducoes s)) /\
  StronglySorted Z.le (map snd (reducoes s)).
Proof.
  unfold reducoes, nsmallest. split; [| split].
  - etransitivity; [apply filter_length_le | apply firstn_le_length].
  - apply Forall_map, Forall_forall. intros kv H.
    apply filter_In in H as [_ H]. now apply Z.ltb_lt.
  - apply StronglySorted_map, StronglySorted_filter, StronglySorted_firstn,
      ordenar_crescente.
Qed.

Lemma aumentos_spec (s : Serie) :
  (List.length (aumentos s) <= 5)%nat /\
  Forall (fun z => 0 < z) (map snd (aumentos s)) /\
  StronglySorted Z.ge (map snd (aumentos s)).
Proof.
  unfold aumentos, nlargest. split; [| split].
  - etransitivity; [apply filter_length_le | apply firstn_le_length].
  - apply Forall_map, Forall_forall. intros kv H.
    apply filter_In in H as [_ H]. apply Z.gtb_lt in H. lia.
  - apply StronglySorted_map with (R := Z.ge) (f := snd).
    apply StronglySorted_filter, StronglySorted_firstn, ordenar_decrescente.
Qed.

(** ** Results on the expanders *)

Lemma mapM_total {A B} (f : A -> res B) (P : A -> B -> Prop) (l : list A) :
  (forall a, exists b, f a = inr b /\ P a b) ->
  exists bs, mapM f l = inr bs /\ Forall2 P l bs.
Proof.
  intros Hf. induction l as [| a l [bs [E F]]]; simpl.
  - eexists; split; [reflexivity | constructor].
  - destruct (Hf a) as [b [Eb Pb]]. rewrite Eb, E. simpl.
    eexists; split; [reflexivity | now constructor].
Qed.

Lemma Forall2_map_eq {A B C} (f : A -> C) (g : B -> C) (l : list A) (l' : list B) :
  Forall2 (fun a b => g b = f a) l l' -> map g l' = map f l.
Proof.
  induction 1; simpl; congruence.
Qed.

Lemma Forall2_In_dir {A B} (P : A -> B -> Prop) (l : list A) (l' : list B) (b : B) :
  Forall2 P l l' -> In b l' -> exists a, In a l /\ P a b.
Proof.
  induction 1 as [| x y l l' Hxy _ IH]; simpl; [contradiction |].
  intros [<- | H]; [eauto |].
  destruct (IH H) as [a [Ha Pa]]. eauto.
Qed.

Lemma motivos_relacionados_total (a b : list registro) (n : valor) :
  exists ms,
    motivos_relacionados a b n = inr ms /\
    Forall2 (fun kv l =>
               motivo_nome l = fst kv /\ count_atual l = snd kv /\
               count_anterior l =
                 get (value_counts (map motivo (da_natureza n b))) (fst kv) 0)
            (value_counts (map motivo (da_natureza n a))) ms.
Proof.
  unfold motivos_relacionados. apply mapM_total. intros kv.
  destruct (analisar_variacao_total (snd kv)
              (get (value_counts (map motivo (da_natureza n b))) (fst kv) 0))
    as [p [d E]].
  rewrite E. simpl. eexists; split; [reflexivity |]. simpl. auto.
Qed.

Lemma expander_total (a b : list registro) (kv : valor * Z) :
  exists e, expander a b kv = inr e /\
            (fun kv e => delta e = snd kv) kv e.
Proof.
  unfold expander. destruct (motivos_relacionados_total a b (fst kv)) as [ms [E _]].
  rewrite E. simpl. eexists; split; reflexivity.
Qed.

(** C6. For every segment the report computes the two lists without
    raising; "com redução" has at most five entries, all of strictly
    negative delta, in ascending order of delta; "com aumento" has at most
    five entries, all of strictly positive delta, in descending order of
    delta. *)
Theorem top5_reducao_e_aumento (df_atual df_anterior : list registro) (s : valor) :
  exists d,
    analise_natureza df_atual df_anterior s = inr d /\
    (List.length (com_reducao d) <= 5)%nat /\
    Forall (fun z => z < 0) (map delta (com_reducao d)) /\
    StronglySorted Z.le (map delta (com_reducao d)) /\
    (List.length (com_aumento d) <= 5)%nat /\
    Forall (fun z => 0 < z) (map delta (com_aumento d)) /\
    StronglySorted Z.ge (map delta (com_aumento d)).
Proof.
  unfold analise_natureza.
  set (a := do_segmento s df_atual). set (b := do_segmento s df_anterior).
  set (np := naturezas_positivas a b).
  destruct (mapM_total (expander a b) _ (reducoes np) (expander_total a b))
    as [red [Er Fr]].
  destruct (mapM_total (expander a b) _ (aumentos np) (expander_total a b))
    as [aum [Ea Fa]].
  rewrite Er, Ea. simpl. eexists; split; [reflexivity |]. simpl.
  pose proof (Forall2_length Fr) as Lr. pose proof (Forall2_length Fa) as La.
  apply Forall2_map_eq in Fr, Fa. rewrite Fr, Fa, <- Lr, <- La.
  destruct (reducoes_spec np) as [? [? ?]]. destruct (aumentos_spec np) as [? [? ?]].
  repeat split; assumption.
Qed.

(** ** Results on counting *)

Lemma dropna_valores_In (k : valor) (col : list cell) :
  In k (dropna_valores col) <-> In (Some k) col.
Proof.
  induction col as [| [v |] col IH]; simpl.
  - tauto.
  - rewrite IH. split; intros [H | H]; auto; left; congruence.
  - rewrite IH. split; [auto | intros [H | H]; [discriminate | assumption]].
Qed.

Lemma unique_In (k : valor) (l : list valor) : In k (unique l) <-> In k l.
Proof.
  induction l as [| x l IH]; simpl; [tauto |].
  rewrite filter_In, IH. split.
  - intros [H | [H _]]; auto.
  - intros [H | H]; [now left |].
    destruct (valor_eqb x k) eqn:E.
    + left. now apply valor_eqb_eq.
    + right. now split.
Qed.

Lemma unique_NoDup (l : list valor) : NoDup (unique l).
Proof.
  induction l as [| x l IH]; simpl; constructor.
  - intros H. apply filter_In in H as [_ H].
    rewrite valor_eqb_refl in H. discriminate.
  - now apply NoDup_filter.
Qed.

Lemma contar_dropna (k : valor) (col : list cell) :
  contar k (dropna_valores col) = ocorrencias k col.
Proof.
  unfold contar, ocorrencias. f_equal.
  induction col as [| [v |] col IH]; simpl; [reflexivity | | assumption].
  destruct (valor_eqb k v) eqn:E.
  - apply valor_eqb_eq in E as ->. rewrite valor_eqb_refl. simpl. now f_equal.
  - replace (valor_eqb v k) with false; [assumption |].
    symmetry. apply valor_eqb_neq. apply valor_eqb_neq in E. congruence.
Qed.

Lemma ocorrencias_ausente (k : valor) (col : list cell) :
  ~ In (Some k) col -> ocorrencias k col = 0.
Proof.
  unfold ocorrencias. intros H.
  replace (filter (fun c => cell_eqb c (Some k)) col) with (@nil cell); [reflexivity |].
  symmetry. induction col as [| c col IH]; simpl; [reflexivity |].
  destruct (cell_eqb c (Some k)) eqn:E.
  - apply cell_eqb_Some in E. exfalso. apply H. now left.
  - apply IH. intros H'. apply H. now right.
Qed.

Lemma ocorrencias_presente (k : valor) (col : list cell) :
  In (Some k) col -> 0 < ocorrencias k col.
Proof.
  unfold ocorrencias. intros H.
  assert (Hin : In (Some k) (filter (fun c => cell_eqb c (Some k)) col)).
  { apply filter_In. split; [assumption | now apply cell_eqb_Some]. }
  destruct (filter _ col); [contradiction | simpl; lia].
Qed.

Lemma serie_get_In (s : Serie) (k : valor) (n : Z) :
  NoDup (indice s) -> In (k, n) s -> serie_get s k = Some n.
Proof.
  induction s as [| [k' n'] s IH]; simpl; intros Hnd Hin; [contradiction |].
  inversion Hnd as [| ? ? Hk' Hnd']; subst.
  destruct Hin as [[= -> ->] | Hin].
  - now rewrite valor_eqb_refl.
  - destruct (valor_eqb k' k) eqn:E; [| auto].
    apply valor_eqb_eq in E as ->. exfalso. apply Hk'.
    apply in_map_iff. now exists (k, n).
Qed.

Lemma serie_get_ausente (s : Serie) (k : valor) :
  ~ In k (indice s) -> serie_get s k = None.
Proof.
  induction s as [| [k' n'] s IH]; simpl; intros H; [reflexivity |].
  destruct (valor_eqb k' k) eqn:E.
  - apply valor_eqb_eq in E. exfalso. auto.
  - apply IH. auto.
Qed.

Lemma value_counts_perm (col : list cell) :
  Permutation (value_counts col)
              (map (fun k => (k, ocorrencias k col)) (unique (dropna_valores col))).
Proof.
  unfold value_counts. rewrite ordenar_perm.
  erewrite map_ext; [reflexivity |]. intros k. simpl. now rewrite contar_dropna.
Qed.

Lemma value_counts_entrada (col : list cell) (k : valor) (n : Z) :
  In (k, n) (value_counts col) <-> In (Some k) col /\ n = ocorrencias k col.
Proof.
  split.
  - intros H. apply (Permutation_in _ (value_counts_perm col)) in H.
    apply in_map_iff in H as [k' [[= -> <-] H]].
    apply unique_In, dropna_valores_In in H. auto.
  - intros [H ->]. apply (Permutation_in _ (Permutation_sym (value_counts_perm col))).
    apply in_map_iff. exists k. split; [reflexivity |].
    now apply unique_In, dropna_valores_In.
Qed.

Lemma value_counts_indice (col : list cell) (k : valor) :
  In k (indice (value_counts col)) <-> In (Some k) col.
Proof.
  unfold indice. rewrite in_map_iff. split.
  - intros [[k' n] [<- H]]. now apply value_counts_entrada in H.
  - intros H. exists (k, ocorrencias k col). split; [reflexivity |].
    now apply value_counts_entrada.
Qed.

Lemma value_counts_NoDup (col : list cell) : NoDup (indice (value_counts col)).
Proof.
  unfold indice.
  eapply Permutation_NoDup.
  - apply Permutation_map. symmetry. apply value_counts_perm.
  - rewrite map_map. simpl. rewrite map_id. apply unique_NoDup.
Qed.

Lemma presente_ou_ausente (k : valor) (col : list cell) :
  In (Some k) col \/ ~ In (Some k) col.
Proof.
  destruct (existsb (fun c => cell_eqb c (Some k)) col) eqn:E.
  - left. apply existsb_exists in E as [c [H E]].
    apply cell_eqb_Some in E. now subst.
  - right. intros H.
    assert (existsb (fun c => cell_eqb c (Some k)) col = true); [| congruence].
    apply existsb_exists. exists (Some k). split; [assumption | now apply cell_eqb_Some].
Qed.

Lemma value_counts_get (col : list cell) (k : valor) :
  get (value_counts col) k 0 = ocorrencias k col.
Proof.
  unfold get.
  destruct (presente_ou_ausente k col) as [H | H].
  2: { rewrite serie_get_ausente, ocorrencias_ausente; auto.
       now rewrite value_counts_indice. }
  erewrite serie_get_In; [reflexivity | apply value_counts_NoDup |].
  now apply value_counts_entrada.
Qed.

(** ** Results on the aggregated tables *)

Lemma pertence_In (k : valor) (l : list valor) : pertence k l = true <-> In k l.
Proof.
  unfold pertence. rewrite existsb_exists. split.
  - intros [x [H E]]. apply valor_eqb_eq in E. now subst.
  - intros H. exists k. split; [assumption | apply valor_eqb_refl].
Qed.

Lemma uniao_In (a b : list valor) (k : valor) :
  In k (uniao a b) <-> In k a \/ In k b.
Proof.
  unfold uniao. rewrite in_app_iff, filter_In. split.
  - intros [H | [H _]]; auto.
  - intros [H | H]; [now left |].
    destruct (pertence k a) eqn:E.
    + left. now apply pertence_In.
    + right. split; [assumption | reflexivity].
Qed.

Lemma uniao_NoDup (a b : list valor) : NoDup a -> NoDup b -> NoDup (uniao a b).
Proof.
  intros Ha Hb. apply NoDup_app; [assumption | now apply NoDup_filter |].
  intros k Hk H. apply filter_In in H as [_ H].
  apply pertence_In in Hk. rewrite Hk in H. discriminate.
Qed.

Lemma indices_iguais_eq (a b : list valor) : indices_iguais a b = true -> a = b.
Proof.
  unfold indices_iguais. revert b.
  induction a as [| x a IH]; intros [| y b]; simpl; try discriminate; [reflexivity |].
  intros H. apply andb_true_iff in H as [Hl H]. apply andb_true_iff in H as [Hx H].
  apply valor_eqb_eq in Hx as ->. f_equal. apply IH.
  apply andb_true_iff. split; assumption.
Qed.

Lemma alinhar_perm (a b : list valor) :
  Permutation (alinhar a b) (uniao a b) \/ (a = b /\ alinhar a b = a).
Proof.
  unfold alinhar. destruct (indices_iguais a b) eqn:E.
  - right. split; [now apply indices_iguais_eq | reflexivity].
  - left. apply ordenar_perm.
Qed.

Lemma alinhar_In (a b : list valor) (k : valor) :
  In k (alinhar a b) <-> In k a \/ In k b.
Proof.
  destruct (alinhar_perm a b) as [P | [-> ->]]; [| tauto].
  rewrite <- uniao_In. split; apply Permutation_in; [| symmetry]; exact P.
Qed.

Lemma alinhar_NoDup (a b : list valor) : NoDup a -> NoDup b -> NoDup (alinhar a b).
Proof.
  intros Ha Hb. destruct (alinhar_perm a b) as [P | [-> ->]]; [| assumption].
  eapply Permutation_NoDup; [symmetry; exact P | now apply uniao_NoDup].
Qed.

(** C5. For the comparison tables of lines 153-162 (any column, so both
    nature and reason) and for the series of differences of lines 204-206:
    the labels are, without repetition, exactly the values present in the
    column of either subset; each count is the number of records with that
    value in that subset, hence 0 on the side where the value is absent. *)
Theorem agregacao_cobre_uniao (col : registro -> cell)
    (df_atual df_anterior : list registro) :
  let ca := map col df_atual in
  let cb := map col df_anterior in
  let t := comparacao (value_counts ca) (value_counts cb) in
  let s := subtract (value_counts ca) (value_counts cb) in
  (NoDup (map rotulo t) /\
   (forall k, In k (map rotulo t) <-> In (Some k) ca \/ In (Some k) cb) /\
   (forall l, In l t ->
      Atual l = ocorrencias (rotulo l) ca /\
      Anterior l = ocorrencias (rotulo l) cb /\
      (~ In (Some (rotulo l)) ca -> Atual l = 0) /\
      (~ In (Some (rotulo l)) cb -> Anterior l = 0))) /\
  (NoDup (indice s) /\
   (forall k, In k (indice s) <-> In (Some k) ca \/ In (Some k) cb) /\
   (forall k d, In (k, d) s -> d = ocorrencias k ca - ocorrencias k cb)) /\
  naturezas_positivas df_atual df_anterior =
    subtract (value_counts (map natureza df_atual))
             (value_counts (map natureza df_anterior)).
Proof.
  intros ca cb t s. split; [| split; [| reflexivity]].
  - subst t. unfold comparacao. rewrite map_map. simpl. rewrite map_id.
    split; [| split].
    + apply uniao_NoDup; apply value_counts_NoDup.
    + intros k. now rewrite uniao_In, !value_counts_indice.
    + intros l H. apply in_map_iff in H as [k [<- _]]. simpl.
      rewrite !value_counts_get.
      repeat split; auto using ocorrencias_ausente.
  - subst s. unfold subtract, indice. rewrite map_map. simpl. rewrite map_id.
    split; [| split].
    + apply alinhar_NoDup; apply value_counts_NoDup.
    + intros k. now rewrite alinhar_In, !value_counts_indice.
    + intros k d H. apply in_map_iff in H as [k' [[= -> <-] _]].
      now rewrite !value_counts_get.
Qed.

Lemma agregacao_cobre_uniao_witness :
  In (Str "Cadastro")
     (map rotulo
          (comparacao
             (value_counts (map natureza (periodo df_exemplo "janeiro" 2025)))
             (value_counts (map natureza (periodo df_exemplo "dezembro" 2024))))).
Proof.
  apply (proj1 (proj2 (proj1
           (agregacao_cobre_uniao natureza (periodo df_exemplo "janeiro" 2025)
                                  (periodo df_exemplo "dezembro" 2024))))).
  vm_compute. auto.
Defined.

(** ** Results on the tables per segment and channel *)

Lemma analise_canal_sem_segmento (df_atual df_anterior : list registro)
    (s1 s2 : valor) (canal : string) :
  analise_canal df_atual df_anterior s1 canal =
  analise_canal df_atual df_anterior s2 canal.
Proof. reflexivity. Qed.

(** C1. In the example, under the heading of segment "Varejo", the nature
    table of channel "Procon" has a row "Cadastro" with one current record,
    although no record of that segment has this nature: the record belongs
    to segment "Empresas". Lines 147-148 filter by channel only. *)
Theorem tabelas_de_canal_contam_outros_segmentos :
  let df_atual := periodo df_exemplo "janeiro" 2025 in
  let df_anterior := periodo df_exemplo "dezembro" 2024 in
  In (Str "Varejo") (segmentos df_exemplo) /\
  option_map comparacao_natureza
    (analise_canal df_atual df_anterior (Str "Varejo") "Procon") =
    Some [ mkLinha (Str "Cobranca") 1 2 (-1); mkLinha (Str "Cadastro") 1 0 1 ] /\
  map natureza (do_segmento (Str "Varejo") df_atual) = [ txt "Cobranca" ] /\
  map natureza (do_segmento (Str "Varejo") df_anterior) =
    [ txt "Cobranca"; txt "Cobranca"; txt "Cobranca" ].
Proof.
  vm_compute. repeat split; auto.
Qed.

(** ** Results on the breakdown by reason *)

(** C7, as the claim states it, fails: in the example the nature
    "Cobranca" of segment "Varejo" is listed with a reduction of 2; the
    reason "Multa" is present among its reference-period records, and the
    breakdown has the single line of "Juros". *)
Lemma motivos_relacionados_contra :
  let df_atual := periodo df_exemplo "janeiro" 2025 in
  let df_anterior := periodo df_exemplo "dezembro" 2024 in
  let linhas := [ mkLinhaMotivo (Str "Juros") 1 1 (percentual 1 1) ] in
  analise_natureza df_atual df_anterior (Str "Varejo") =
    inr (mkDetalhada [ mkDetalhe (Str "Cobranca") (-2) linhas [] ] []) /\
  In (Some (Str "Multa"))
     (map motivo (da_natureza (Str "Cobranca")
                              (do_segmento (Str "Varejo") df_anterior))) /\
  ~ In (Str "Multa") (map motivo_nome linhas).
Proof.
  vm_compute. split; [reflexivity | split; [auto |]].
  intros [H | H]; [discriminate H | exact H].
Qed.

(** C7, amended. The breakdown by reason of a nature is computed without
    raising and has one line for every reason present among the
    current-period records of that nature, and only for those; the line
    carries the number of such records in the current and in the reference
    period, the latter being 0 for a reason absent from the reference
    period. *)
Theorem motivos_relacionados_do_periodo_atual
    (df_segmento_atual df_segmento_anterior : list registro) (n : valor) :
  let ca := map motivo (da_natureza n df_segmento_atual) in
  let cb := map motivo (da_natureza n df_segmento_anterior) in
  exists ms,
    motivos_relacionados df_segmento_atual df_segmento_anterior n = inr ms /\
    NoDup (map motivo_nome ms) /\
    (forall m, In m (map motivo_nome ms) <-> In (Some m) ca) /\
    (forall l, In l ms ->
       count_atual l = ocorrencias (motivo_nome l) ca /\
       count_anterior l = ocorrencias (motivo_nome l) cb /\
       (~ In (Some (motivo_nome l)) cb -> count_anterior l = 0)).
Proof.
  intros ca cb.
  destruct (motivos_relacionados_total df_segmento_atual df_segmento_anterior n)
    as [ms [E F]].
  exists ms. split; [exact E |].
  assert (Hn : map motivo_nome ms = indice (value_counts ca)).
  { unfold indice. apply Forall2_map_eq. eapply Forall2_impl; [| exact F].
    simpl. tauto. }
  split; [| split].
  - rewrite Hn. apply value_counts_NoDup.
  - intros m. rewrite Hn. apply value_counts_indice.
  - intros l Hl.
    destruct (Forall2_In_dir _ _ _ _ F Hl) as [kv [Hkv [H1 [H2 H3]]]].
    destruct kv as [k c]. simpl in *.
    apply value_counts_entrada in Hkv as [_ ->].
    fold cb in H3. rewrite value_counts_get in H3.
    rewrite H1, H2, H3. repeat split. intros Hab. now apply ocorrencias_ausente.
Qed.

Lemma motivos_relacionados_do_periodo_atual_witness :
  exists ms,
    motivos_relacionados
      (do_segmento (Str "Varejo") (periodo df_exemplo "janeiro" 2025))
      (do_segmento (Str "Varejo") (periodo df_exemplo "dezembro" 2024))
      (Str "Cobranca") = inr ms /\
    In (Str "Juros") (map motivo_nome ms).
Proof.
  destruct (motivos_relacionados_do_periodo_atual
              (do_segmento (Str "Varejo") (periodo df_exemplo "janeiro" 2025))
              (do_segmento (Str "Varejo") (periodo df_exemplo "dezembro" 2024))
              (Str "Cobranca")) as [ms [E [_ [H _]]]].
  exists ms. split; [exact E |].
  apply H. vm_compute. auto.
Defined.

(** ** Results on normalisation: columns and cells *)

Lemma posicoes_desde_spec (name : string) (cols : list string) (k i : nat) :
  In i (posicoes_desde k name cols) <->
  (k <= i)%nat /\ nth_error cols (i - k) = Some name.
Proof.
  revert k. induction cols as [| c cols IH]; intros k; simpl.
  - split; [contradiction | intros [_ H]]. destruct (i - k)%nat; discriminate.
  - assert (Hrec : In i (posicoes_desde (S k) name cols) <->
                   (k < i)%nat /\ nth_error (c :: cols) (i - k) = Some name).
    { rewrite IH. split; intros [H1 H2]; (split; [lia |]).
      - replace (i - k)%nat with (S (i - S k)) by lia. exact H2.
      - replace (i - k)%nat with (S (i - S k)) in H2 by lia. exact H2. }
    destruct (String.eqb_spec c name) as [-> | Hc]; simpl; rewrite Hrec.
    + split.
      * intros [<- | [H1 H2]]; [| split; [lia | exact H2]].
        split; [lia |]. now rewrite Nat.sub_diag.
      * intros [H1 H2]. destruct (Nat.eq_dec k i) as [-> | Hne]; [now left |].
        right. split; [lia | exact H2].
    + split; [intros [H1 H2]; split; [lia | exact H2] |].
      intros [H1 H2]. split; [| exact H2].
      destruct (Nat.eq_dec k i) as [-> | Hne]; [| lia].
      rewrite Nat.sub_diag in H2. simpl in H2. congruence.
Qed.

Lemma posicoes_nth (name : string) (cols : list string) (i : nat) (l : list nat) :
  posicoes name cols = i :: l -> nth_error cols i = Some name.
Proof.
  intros H.
  assert (Hin : In i (posicoes name cols)) by (rewrite H; now left).
  apply posicoes_desde_spec in Hin as [_ Hin]. now rewrite Nat.sub_0_r in Hin.
Qed.

Lemma posicoes_lt (name : string) (cols : list string) (i : nat) (l : list nat) :
  posicoes name cols = i :: l -> (i < List.length cols)%nat.
Proof.
  intros H. apply nth_error_Some. now rewrite (posicoes_nth _ _ _ _ H).
Qed.

Lemma posicoes_vazio (name : string) (cols : list string) :
  posicoes name cols = [] <-> str_in name cols = false.
Proof.
  split.
  - intros H. destruct (str_in name cols) eqn:E; [| reflexivity].
    apply existsb_exists in E as [c [Hc E]]. apply String.eqb_eq in E as <-.
    apply In_nth_error in Hc as [i Hi].
    assert (Hin : In i (posicoes name cols)).
    { apply posicoes_desde_spec. rewrite Nat.sub_0_r. split; [lia | exact Hi]. }
    rewrite H in Hin. contradiction.
  - apply posicoes_desde_ausente.
Qed.

Lemma posicoes_desde_app (name c : string) (cols : list string) (k : nat) :
  posicoes_desde k name (cols ++ [c]) =
  (posicoes_desde k name cols ++
   (if String.eqb c name then [(k + List.length cols)%nat] else []))%list.
Proof.
  revert k. induction cols as [| x cols IH]; intros k; simpl.
  - now rewrite Nat.add_0_r.
  - rewrite IH. replace (S k + List.length cols)%nat with (k + S (List.length cols))%nat by lia.
    destruct (String.eqb x name); reflexivity.
Qed.

Lemma length_substituir (i : nat) (v : cell) (row : list cell) :
  List.length (substituir i v row) = List.length row.
Proof.
  revert i. induction row as [| c row IH]; intros [| i]; simpl; auto.
Qed.

Lemma celula_substituir_mesma (i : nat) (v : cell) (row : list cell) :
  (i < List.length row)%nat -> celula i (substituir i v row) = v.
Proof.
  unfold celula. revert i. induction row as [| c row IH]; intros [| i] H; simpl in *;
    try lia; [reflexivity | apply IH; lia].
Qed.

Lemma celula_substituir_outra (i j : nat) (v : cell) (row : list cell) :
  i <> j -> celula j (substituir i v row) = celula j row.
Proof.
  unfold celula. revert i j. induction row as [| c row IH]; intros [| i] [| j] H; simpl;
    try reflexivity; try congruence.
  apply IH. congruence.
Qed.

Lemma length_fillna_linha (v : cell) (name : string) (cols : list string)
    (row : list cell) :
  List.length (fillna_linha v name cols row) = List.length row.
Proof.
  revert row. induction cols as [| c cols IH]; intros [| x row]; simpl; auto.
Qed.

Lemma celula_fillna_linha (v : cell) (name : string) (cols : list string)
    (row : list cell) (j : nat) (c : string) :
  nth_error cols j = Some c -> (j < List.length row)%nat ->
  celula j (fillna_linha v name cols row) =
  if String.eqb c name then fillna v (celula j row) else celula j row.
Proof.
  unfold celula. revert row j.
  induction cols as [| c' cols IH]; intros [| x row] [| j] Hc Hj; simpl in *;
    try discriminate; try lia.
  - injection Hc as ->. reflexivity.
  - apply IH; [assumption | lia].
Qed.

Lemma celula_app (j : nat) (row : list cell) (v : cell) :
  celula j (row ++ [v]) =
  if (j <? List.length row)%nat then celula j row
  else if (j =? List.length row)%nat then v else None.
Proof.
  unfold celula.
  destruct (Nat.ltb_spec j (List.length row)) as [H | H].
  - now apply app_nth1.
  - rewrite app_nth2 by assumption.
    destruct (Nat.eqb_spec j (List.length row)) as [-> | Hne].
    + now rewrite Nat.sub_diag.
    + destruct (j - List.length row)%nat as [| [| n]] eqn:E; try reflexivity. lia.
Qed.

Lemma combine_map_r {A B C} (g : A -> B) (h : A * B -> C) (l : list A) :
  map h (combine l (map g l)) = map (fun a => h (a, g a)) l.
Proof.
  induction l as [| a l IH]; simpl; congruence.
Qed.

Lemma combine_repeat {A B C} (v : B) (h : A * B -> C) (l : list A) :
  map h (combine l (repeat v (List.length l))) = map (fun a => h (a, v)) l.
Proof.
  induction l as [| a l IH]; simpl; congruence.
Qed.

Lemma setitem_presente (df : DataFrame) (n : string) (i : nat) (l : list nat)
    (f : list cell -> cell) :
  posicoes n (columns df) = i :: l ->
  setitem df n (map f (rows df)) =
  mkDF (columns df) (map (fun r => substituir i (f r) r) (rows df)).
Proof.
  intros H. unfold setitem. rewrite H. f_equal.
  apply (combine_map_r f (fun rv => substituir i (snd rv) (fst rv))).
Qed.

Lemma coluna_substituir (df df' : DataFrame) (n name : string) (i : nat)
    (l : list nat) (v : cell) (r : list cell) :
  columns df' = columns df -> posicoes n (columns df) = i :: l ->
  List.length r = List.length (columns df) ->
  coluna df' name (substituir i v r) =
  if String.eqb name n then v else coluna df name r.
Proof.
  intros Hc Hn Hr. unfold coluna. rewrite Hc.
  destruct (String.eqb_spec name n) as [-> | Hne].
  - rewrite Hn. apply celula_substituir_mesma. rewrite Hr.
    eapply posicoes_lt; eassumption.
  - destruct (posicoes name (columns df)) as [| i' l'] eqn:E; [reflexivity |].
    apply celula_substituir_outra. intros ->.
    apply posicoes_nth in E, Hn. congruence.
Qed.

Lemma passo_comp (a b c : DataFrame) (g g' : list cell -> list cell)
    (f f' : string -> cell -> cell) :
  passo a b g f -> passo b c g' f' ->
  passo a c (fun r => g' (g r)) (fun n x => f' n (f n x)).
Proof.
  intros [R1 H1] [R2 H2]. split.
  - now rewrite R2, R1, map_map.
  - intros r Hr. destruct (H1 r Hr) as [L1 C1]. destruct (H2 (g r) L1) as [L2 C2].
    split; [exact L2 |]. intros name. now rewrite C2, C1.
Qed.

Lemma passo_preencher (df : DataFrame) (col : string) :
  exists g, passo df (preencher df col) g
                  (fun name c => if String.eqb name col then fillna desconhecido c else c).
Proof.
  unfold preencher. destruct (str_in col (columns df)) eqn:Hin.
  - exists (fillna_linha desconhecido col (columns df)). split; [reflexivity |].
    intros r Hr. simpl. split; [now rewrite length_fillna_linha |].
    intros name. unfold coluna. simpl.
    destruct (posicoes name (columns df)) as [| i l] eqn:E.
    + destruct (String.eqb_spec name col) as [-> | _]; [| reflexivity].
      apply posicoes_vazio in E. congruence.
    + erewrite celula_fillna_linha;
        [reflexivity | eapply posicoes_nth; eassumption |].
      rewrite Hr. eapply posicoes_lt; eassumption.
  - exists (fun r => (r ++ [desconhecido])%list).
    apply posicoes_vazio in Hin. unfold setitem. rewrite Hin. split.
    + simpl. apply (combine_repeat desconhecido (fun rv => (fst rv ++ [snd rv])%list)).
    + intros r Hr. simpl. split; [rewrite !length_app; simpl; lia |].
      intros name. unfold coluna. simpl.
      unfold posicoes. rewrite posicoes_desde_app. fold (posicoes name (columns df)).
      rewrite (String.eqb_sym col name).
      destruct (String.eqb_spec name col) as [-> | Hne].
      * rewrite Hin. simpl. rewrite celula_app, Hr, Nat.ltb_irrefl, Nat.eqb_refl.
        reflexivity.
      * rewrite app_nil_r.
        destruct (posicoes name (columns df)) as [| i l] eqn:E; [reflexivity |].
        rewrite celula_app.
        apply posicoes_lt in E. rewrite <- Hr in E.
        apply Nat.ltb_lt in E. now rewrite E.
Qed.

Lemma columns_preencher (df : DataFrame) (col name : string) :
  str_in name (columns (preencher df col)) =
  str_in name (columns df) || String.eqb name col.
Proof.
  unfold preencher. destruct (str_in col (columns df)) eqn:Hin; simpl.
  - destruct (String.eqb_spec name col) as [-> | _]; [| now rewrite orb_false_r].
    now rewrite Hin.
  - apply posicoes_vazio in Hin. unfold setitem. rewrite Hin. simpl.
    unfold str_in. rewrite existsb_app. simpl. now rewrite orb_false_r.
Qed.

Lemma passo_id (df : DataFrame) : passo df df (fun r => r) (fun _ c => c).
Proof.
  split; [now rewrite map_id | intros r Hr; split; [exact Hr | reflexivity]].
Qed.

Lemma passo_completar (df : DataFrame) :
  exists g f,
    passo df (completar df) g f /\
    (forall c, f "ano" c = c) /\ (forall c, f "mes" c = c) /\
    (forall c, f "segmento" c = fillna desconhecido c) /\
    (forall c, f "ds_canal" c = fillna desconhecido c) /\
    (forall c, f "natureza" c = fillna desconhecido c) /\
    (forall c, f "motivo" c = fillna desconhecido c) /\
    (forall c, f "fato_gerador_fato_gerador" c =
               if str_in "fato_gerador_fato_gerador" (columns df) then c
               else fillna desconhecido c).
Proof.
  unfold completar. cbn [fold_left].
  set (d1 := preencher df "segmento").
  set (d2 := preencher d1 "ds_canal").
  set (d3 := preencher d2 "natureza").
  set (d4 := preencher d3 "motivo").
  destruct (passo_preencher df "segmento") as [g1 P1]. fold d1 in P1.
  destruct (passo_preencher d1 "ds_canal") as [g2 P2]. fold d2 in P2.
  destruct (passo_preencher d2 "natureza") as [g3 P3]. fold d3 in P3.
  destruct (passo_preencher d3 "motivo") as [g4 P4]. fold d4 in P4.
  pose proof (passo_comp _ _ _ _ _ _ _ (passo_comp _ _ _ _ _ _ _
               (passo_comp _ _ _ _ _ _ _ P1 P2) P3) P4) as P.
  assert (Hc : str_in "fato_gerador_fato_gerador" (columns d4) =
               str_in "fato_gerador_fato_gerador" (columns df)).
  { unfold d4, d3, d2, d1. rewrite !columns_preencher.
    change ("fato_gerador_fato_gerador" =? "segmento")%string with false.
    change ("fato_gerador_fato_gerador" =? "ds_canal")%string with false.
    change ("fato_gerador_fato_gerador" =? "natureza")%string with false.
    change ("fato_gerador_fato_gerador" =? "motivo")%string with false.
    now rewrite !orb_false_r. }
  rewrite Hc.
  destruct (str_in "fato_gerador_fato_gerador" (columns df)) eqn:Hf.
  - do 2 eexists. split; [exact P |]. repeat split; reflexivity.
  - destruct (passo_preencher d4 "fato_gerador_fato_gerador") as [g5 P5].
    unfold preencher in P5 at 1. rewrite Hc in P5.
    pose proof (passo_comp _ _ _ _ _ _ _ P P5) as P'.
    do 2 eexists. split; [exact P' |]. repeat split; reflexivity.
Qed.

Lemma processar_dados_corpo_inversao (parse_numeric : string -> option float64)
    (t df : DataFrame) :
  processar_dados_corpo parse_numeric t = inr df ->
  exists ia im,
    posicoes "ano" (normalizar_colunas (columns t)) = [ia] /\
    posicoes "mes" (normalizar_colunas (columns t)) = [im] /\
    df = completar
           (dropna
              (mkDF (normalizar_colunas (columns t))
                    (map (fun r => substituir im (canonizar_mes (celula im r)) r)
                         (map (fun r => substituir ia
                                          (ano_Int64 parse_numeric (celula ia r)) r)
                              (rows t))))
              ["mes"; "ano"]).
Proof.
  unfold processar_dados_corpo. fold (renomeada t).
  unfold getitem at 1.
  change (columns (renomeada t)) with (normalizar_colunas (columns t)).
  destruct (posicoes "ano" (normalizar_colunas (columns t))) as [| ia [| ? ?]] eqn:Ea;
    [discriminate | | discriminate].
  unfold bind at 1, ret at 1, converter_ano, astype_Int64.
  change (rows (renomeada t)) with (rows t).
  destruct (forallb _ _); [| discriminate].
  unfold bind at 1, ret at 1.
  rewrite !map_map.
  assert (E1 : setitem (renomeada t) "ano"
                 (map (fun r => para_Int64 (to_numeric parse_numeric (celula ia r)))
                      (rows t)) =
               mkDF (normalizar_colunas (columns t))
                    (map (fun r => substituir ia (ano_Int64 parse_numeric (celula ia r)) r)
                         (rows t))).
  { apply (setitem_presente (renomeada t) "ano" ia []
             (fun r => ano_Int64 parse_numeric (celula ia r))). exact Ea. }
  rewrite E1. clear E1.
  set (d1 := mkDF _ (map (fun r => substituir ia _ r) (rows t))).
  unfold getitem.
  change (columns d1) with (normalizar_colunas (columns t)).
  destruct (posicoes "mes" (normalizar_colunas (columns t))) as [| im [| ? ?]] eqn:Em;
    [discriminate | | discriminate].
  unfold bind at 1, ret at 1, str_accessor.
  destruct (dtype_object _); [| discriminate].
  unfold bind, ret. intros [= <-].
  exists ia, im. repeat split.
  pose proof (setitem_presente d1 "mes" im []
                (fun r => canonizar_mes (celula im r)) Em) as E2.
  rewrite <- (map_map (celula im) canonizar_mes) in E2.
  subst d1. cbn [rows columns] in E2. rewrite E2. reflexivity.
Qed.

Lemma length_normalizar_colunas (cols : list string) :
  List.length (normalizar_colunas cols) = List.length cols.
Proof.
  unfold normalizar_colunas, rename.
  destruct (str_in _ _); now rewrite ?length_map.
Qed.

Lemma coluna_mesmas_colunas (df df' : DataFrame) (name : string) (r : list cell) :
  columns df' = columns df -> coluna df' name r = coluna df name r.
Proof. unfold coluna. now intros ->. Qed.

Lemma coluna_unica (df : DataFrame) (name : string) (i : nat) (r : list cell) :
  posicoes name (columns df) = [i] -> celula i r = coluna df name r.
Proof. unfold coluna. now intros ->. Qed.

(** The two assignments of lines 36-46 on one row, read by column name. *)
Lemma coluna_ano_mes (parse_numeric : string -> option float64) (t d2 : DataFrame)
    (ia im : nat) (raw : list cell) (name : string) :
  posicoes "ano" (normalizar_colunas (columns t)) = [ia] ->
  posicoes "mes" (normalizar_colunas (columns t)) = [im] ->
  columns d2 = normalizar_colunas (columns t) ->
  List.length raw = List.length (columns t) ->
  coluna d2 name
    (substituir im
       (canonizar_mes
          (celula im (substituir ia (ano_Int64 parse_numeric (celula ia raw)) raw)))
       (substituir ia (ano_Int64 parse_numeric (celula ia raw)) raw)) =
  if String.eqb name "mes"
  then canonizar_mes (coluna (renomeada t) "mes" raw)
  else if String.eqb name "ano"
       then ano_Int64 parse_numeric (coluna (renomeada t) "ano" raw)
       else coluna (renomeada t) name raw.
Proof.
  intros Ea Em Hc Hr.
  assert (Hr' : List.length raw = List.length (columns (renomeada t))).
  { simpl. now rewrite length_normalizar_colunas. }
  set (r1 := substituir ia (ano_Int64 parse_numeric (celula ia raw)) raw).
  assert (H1 : forall n, coluna (renomeada t) n r1 =
                         if String.eqb n "ano"
                         then ano_Int64 parse_numeric (celula ia raw)
                         else coluna (renomeada t) n raw).
  { intros n. apply (coluna_substituir (renomeada t) (renomeada t) "ano" n ia []);
      [reflexivity | exact Ea | exact Hr']. }
  rewrite (coluna_substituir (renomeada t) d2 "mes" name im []);
    [| exact Hc | exact Em | unfold r1; now rewrite length_substituir].
  rewrite (coluna_unica (renomeada t) "mes" im r1 Em), !H1.
  rewrite (coluna_unica (renomeada t) "ano" ia raw Ea).
  reflexivity.
Qed.

(** The frame that normalisation returns when it does not fail, row by
    row. *)
Theorem processar_dados_corpo_registros (parse_numeric : string -> option float64)
    (t df : DataFrame) :
  retangular t ->
  processar_dados_corpo parse_numeric t = inr df ->
  registros df =
  map (normalizar_linha parse_numeric t) (filter (mantida parse_numeric t) (rows t)).
Proof.
  intros Hret Hok.
  destruct (processar_dados_corpo_inversao _ _ _ Hok) as [ia [im [Ea [Em ->]]]].
  set (s12 := fun r : list cell =>
                substituir im
                  (canonizar_mes
                     (celula im (substituir ia (ano_Int64 parse_numeric (celula ia r)) r)))
                  (substituir ia (ano_Int64 parse_numeric (celula ia r)) r)).
  rewrite (map_map _ (fun r => substituir im (canonizar_mes (celula im r)) r)).
  fold s12.
  set (d2 := mkDF (normalizar_colunas (columns t)) (map s12 (rows t))).
  set (d3 := dropna d2 ["mes"; "ano"]).
  destruct (passo_completar d3) as [g [f [[Hrows Hcol] Hf]]].
  destruct Hf as [Fano [Fmes [Fseg [Fcan [Fnat [Fmot Ffat]]]]]].
  assert (Hd2 : forall raw name, In raw (rows t) ->
            coluna d2 name (s12 raw) =
            if String.eqb name "mes"
            then canonizar_mes (coluna (renomeada t) "mes" raw)
            else if String.eqb name "ano"
                 then ano_Int64 parse_numeric (coluna (renomeada t) "ano" raw)
                 else coluna (renomeada t) name raw).
  { intros raw name Hin. apply coluna_ano_mes; try assumption; [reflexivity |].
    unfold retangular in Hret. rewrite Forall_forall in Hret. now apply Hret. }
  assert (Hr3 : rows d3 =
                map s12 (filter (fun r => forallb (presente d2 (s12 r)) ["mes"; "ano"])
                                (rows t))).
  { unfold d3, dropna. cbn [rows]. unfold d2 at 2. cbn [rows].
    apply filter_map_swap. }
  unfold registros. rewrite Hrows, Hr3, !map_map.
  erewrite filter_ext_in with (g := mantida parse_numeric t).
  - apply map_ext_in. intros raw Hraw. apply filter_In in Hraw as [Hraw _].
    assert (Hlen : List.length (s12 raw) = List.length (columns d3)).
    { unfold s12. rewrite !length_substituir. simpl.
      rewrite length_normalizar_colunas.
      unfold retangular in Hret. rewrite Forall_forall in Hret. now apply Hret. }
    destruct (Hcol _ Hlen) as [_ Hc]. rewrite !Hc.
    rewrite !(coluna_mesmas_colunas d2 d3) by reflexivity.
    rewrite !Hd2 by assumption.
    rewrite Fano, Fmes, Fseg, Fcan, Fnat, Fmot, Ffat.
    unfold normalizar_linha. cbn [String.eqb Ascii.eqb Bool.eqb].
    change (columns d3) with (columns (renomeada t)).
    destruct (str_in "fato_gerador_fato_gerador" (columns (renomeada t))) eqn:E;
      [reflexivity |].
    f_equal. unfold coluna.
    apply posicoes_vazio in E. now rewrite E.
  - intros raw Hraw. cbn [forallb]. unfold presente.
    change (columns d2) with (normalizar_colunas (columns t)).
    rewrite Em, Ea. cbn [forallb].
    rewrite (coluna_unica d2 "mes" im) by exact Em.
    rewrite (coluna_unica d2 "ano" ia) by exact Ea.
    rewrite !Hd2 by assumption. cbn [String.eqb Ascii.eqb Bool.eqb].
    unfold mantida, tem_valor. rewrite !andb_true_r. reflexivity.
Qed.

(** ** Results on the spelling of months *)

Lemma append_assoc (a b c : string) : ((a ++ b) ++ c = a ++ (b ++ c))%string.
Proof. induction a as [| x a IH]; simpl; congruence. Qed.

Lemma append_vazio_r (a : string) : (a ++ "")%string = a.
Proof. induction a as [| x a IH]; simpl; congruence. Qed.

Lemma lower_append (a b : string) : lower (a ++ b) = (lower a ++ lower b)%string.
Proof. induction a as [| x a IH]; simpl; congruence. Qed.

Lemma lower_char_espaco (c : ascii) : isspace c = true -> lower_char c = c.
Proof.
  destruct c as [[] [] [] [] [] [] [] []]; vm_compute; intros H;
    try reflexivity; discriminate H.
Qed.

Lemma espaco_lower_char (c : ascii) : isspace (lower_char c) = true -> isspace c = true.
Proof.
  destruct c as [[] [] [] [] [] [] [] []]; vm_compute; intros H;
    try reflexivity; discriminate H.
Qed.

Lemma lower_char_variantes (d : ascii) :
  d = lower_char d \/ d = maiuscula (lower_char d).
Proof.
  destruct d as [[] [] [] [] [] [] [] []]; vm_compute; auto.
Qed.

Lemma lower_char_maiuscula (c : ascii) :
  lower_char c = c -> lower_char (maiuscula c) = c.
Proof.
  destruct c as [[] [] [] [] [] [] [] []]; vm_compute; intros H;
    try reflexivity; discriminate H.
Qed.

Lemma lower_espacos (w : string) : espacos w = true -> lower w = w.
Proof.
  induction w as [| c w IH]; simpl; [reflexivity |].
  intros H. apply andb_true_iff in H as [Hc Hw].
  now rewrite lower_char_espaco, IH.
Qed.

Lemma espacos_lower (w : string) : espacos (lower w) = true -> espacos w = true.
Proof.
  induction w as [| c w IH]; simpl; [reflexivity |].
  intros H. apply andb_true_iff in H as [Hc Hw].
  apply andb_true_iff. split; [now apply espaco_lower_char | auto].
Qed.

Lemma variante_caixa_lower (m v : string) :
  variante_caixa m v -> lower m = m -> lower v = m.
Proof.
  induction 1 as [| c m v _ IH | c m v _ IH]; simpl; [reflexivity | |];
    intros [= Hc Hm]; rewrite (IH Hm).
  - now rewrite Hc.
  - now rewrite (lower_char_maiuscula c Hc).
Qed.

Lemma lower_variante_caixa (v : string) : variante_caixa (lower v) v.
Proof.
  induction v as [| d v IH]; simpl; [constructor |].
  destruct (lower_char_variantes d) as [H | H].
  - rewrite <- H. now constructor.
  - rewrite H at 2. now constructor.
Qed.

Lemma lower_divide (s a x : string) :
  lower s = (a ++ x)%string ->
  exists s1 s2, s = (s1 ++ s2)%string /\ lower s1 = a /\ lower s2 = x.
Proof.
  revert s. induction a as [| c a IH]; intros s H.
  - exists EmptyString, s. auto.
  - destruct s as [| d s]; [discriminate |]. simpl in H. injection H as Hc Hs.
    destruct (IH s Hs) as [s1 [s2 [-> [H1 H2]]]].
    exists (String d s1), s2. simpl. now rewrite H1, Hc.
Qed.

Lemma lstrip_espacos (w x : string) : espacos w = true -> lstrip (w ++ x) = lstrip x.
Proof.
  induction w as [| c w IH]; simpl; [reflexivity |].
  intros H. apply andb_true_iff in H as [Hc Hw]. now rewrite Hc, IH.
Qed.

Lemma rstrip_espacos (w : string) : espacos w = true -> rstrip w = EmptyString.
Proof.
  induction w as [| c w IH]; simpl; [reflexivity |].
  intros H. apply andb_true_iff in H as [Hc Hw]. now rewrite IH, Hc.
Qed.

Lemma rstrip_append (a y : string) :
  rstrip (a ++ y) =
  match rstrip y with
  | EmptyString => rstrip a
  | r => (a ++ r)%string
  end.
Proof.
  induction a as [| c a IH]; simpl.
  - now destruct (rstrip y).
  - rewrite IH. destruct (rstrip y) as [| d r]; [reflexivity |].
    now destruct a.
Qed.

Lemma lstrip_decompoe (y : string) :
  exists a, y = (a ++ lstrip y)%string /\ espacos a = true.
Proof.
  induction y as [| c y [a [E H]]]; simpl.
  - now exists EmptyString.
  - destruct (isspace c) eqn:Hc.
    + exists (String c a). simpl. rewrite Hc, H. now rewrite <- E.
    + now exists EmptyString.
Qed.

Lemma rstrip_decompoe (y : string) :
  exists b, y = (rstrip y ++ b)%string /\ espacos b = true.
Proof.
  induction y as [| c y [b [E H]]]; simpl.
  - now exists EmptyString.
  - destruct (rstrip y) as [| d r] eqn:R.
    + simpl in E. subst y. destruct (isspace c) eqn:Hc.
      * exists (String c b). simpl. now rewrite Hc, H.
      * now exists b.
    + exists b. simpl. split; [| exact H]. f_equal. exact E.
Qed.

Lemma strip_decompoe (y : string) :
  exists a b, y = (a ++ strip y ++ b)%string /\ espacos a = true /\ espacos b = true.
Proof.
  destruct (rstrip_decompoe y) as [b [Eb Hb]].
  destruct (lstrip_decompoe (rstrip y)) as [a [Ea Ha]].
  exists a, b. unfold strip. repeat split; try assumption.
  rewrite <- append_assoc, <- Ea. exact Eb.
Qed.

Lemma strip_entre_espacos (w1 m w2 : string) :
  espacos w1 = true -> espacos w2 = true ->
  rstrip m = m -> lstrip m = m -> m <> EmptyString ->
  strip (w1 ++ m ++ w2) = m.
Proof.
  intros H1 H2 Hr Hl Hm. unfold strip.
  rewrite rstrip_append, rstrip_append, (rstrip_espacos w2 H2), Hr.
  destruct m as [| c m]; [contradiction |].
  now rewrite lstrip_espacos.
Qed.

Lemma reconhecidos_canonicos (m : string) :
  In m reconhecidos ->
  lower m = m /\ rstrip m = m /\ lstrip m = m /\
  categorical (replace_meses (Some (Str m))) = Some (Str (nome_completo m)) /\
  In (nome_completo m) ORDEM_MESES /\
  m <> EmptyString.
Proof.
  unfold reconhecidos. intros H. simpl in H.
  repeat (destruct H as [<- | H];
          [ vm_compute; repeat split; auto 15; discriminate | ]).
  contradiction.
Qed.

Lemma dict_get_In {V} (d : list (string * V)) (k : string) (v : V) :
  dict_get d k = Some v -> In k (map fst d).
Proof.
  induction d as [| [k' v'] d IH]; simpl; [discriminate |].
  destruct (String.eqb_spec k' k) as [-> | _]; [now left | right; auto].
Qed.

Lemma str_in_In (s : string) (l : list string) : str_in s l = true <-> In s l.
Proof.
  unfold str_in. rewrite existsb_exists. split.
  - intros [x [H E]]. apply String.eqb_eq in E. now subst.
  - intros H. exists s. split; [assumption | apply String.eqb_refl].
Qed.

Lemma canonizar_mes_grafia (m s : string) :
  In m reconhecidos -> grafia m s ->
  canonizar_mes (Some (Str s)) = Some (Str (nome_completo m)).
Proof.
  intros Hm [w1 [v [w2 [-> [H1 [H2 Hv]]]]]].
  destruct (reconhecidos_canonicos m Hm) as [Hlow [Hr [Hl [Hc [_ Hne]]]]].
  unfold canonizar_mes, lower_strip.
  rewrite !lower_append, (lower_espacos w1 H1), (lower_espacos w2 H2),
    (variante_caixa_lower m v Hv Hlow).
  rewrite strip_entre_espacos by assumption. exact Hc.
Qed.

Lemma grafia_strip_lower (s : string) : grafia (strip (lower s)) s.
Proof.
  generalize (strip_decompoe (lower s)). generalize (strip (lower s)).
  intros x [a [b [E [Ha Hb]]]].
  destruct (lower_divide _ _ _ E) as [s1 [s' [-> [L1 L']]]].
  destruct (lower_divide _ _ _ L') as [v [s2 [-> [Lv L2]]]].
  exists s1, v, s2. subst a b x.
  repeat split; [now apply espacos_lower | now apply espacos_lower |].
  apply lower_variante_caixa.
Qed.

Lemma canonizar_mes_reconhece (c : cell) :
  canonizar_mes c <> None ->
  exists m s, c = Some (Str s) /\ In m reconhecidos /\ grafia m s.
Proof.
  destruct c as [[z | s] |]; try (intros H; now contradiction H).
  intros H. exists (strip (lower s)), s. split; [reflexivity |].
  split; [| apply grafia_strip_lower].
  unfold canonizar_mes, lower_strip, replace_meses, reconhecidos in *.
  apply in_or_app.
  destruct (dict_get meses_map (strip (lower s))) as [full |] eqn:D.
  - right. eapply dict_get_In; eassumption.
  - left. unfold categorical in H.
    destruct (str_in (strip (lower s)) ORDEM_MESES) eqn:E; [| now contradiction H].
    now apply str_in_In.
Qed.

Lemma fillna_desconhecido (c : cell) : fillna desconhecido c <> None.
Proof. destruct c; discriminate. Qed.

Lemma tem_valor_true (c : cell) : tem_valor c = true <-> c <> None.
Proof. destruct c; simpl; split; congruence. Qed.

(** C9. (1) Every spelling of one of the twelve names or twelve
    abbreviations, in any mix of cases and between any white space, is
    canonised to the full name of the month, which is one of the twelve
    categories. (2) Every other cell is canonised to a missing month.
    (3) The records that normalisation returns are those of the input
    rows that it keeps, in order, and a row whose month is missing after
    canonisation is not kept; so every record returned comes from a row
    whose month cell is such a spelling, and carries the full name. *)
Theorem canonizacao_dos_meses :
  (forall m s, In m reconhecidos -> grafia m s ->
     canonizar_mes (Some (Str s)) = Some (Str (nome_completo m)) /\
     In (nome_completo m) ORDEM_MESES) /\
  (forall c, ~ (exists m s, c = Some (Str s) /\ In m reconhecidos /\ grafia m s) ->
     canonizar_mes c = None) /\
  (forall parse_numeric t df,
     retangular t -> processar_dados_corpo parse_numeric t = inr df ->
     registros df =
       map (normalizar_linha parse_numeric t)
           (filter (mantida parse_numeric t) (rows t)) /\
     forall raw, canonizar_mes (coluna (renomeada t) "mes" raw) = None ->
                 mantida parse_numeric t raw = false) /\
  (forall parse_numeric t out df out' r,
     retangular t -> processar_dados parse_numeric t out = (inr df, out') ->
     In r (registros df) ->
     exists raw m s,
       In raw (rows t) /\ r = normalizar_linha parse_numeric t raw /\
       coluna (renomeada t) "mes" raw = Some (Str s) /\
       In m reconhecidos /\ grafia m s /\
       mes r = Some (Str (nome_completo m))).
Proof.
  split; [| split; [| split]].
  - intros m s Hm Hg. split; [now apply canonizar_mes_grafia |].
    now apply reconhecidos_canonicos.
  - intros c Hc. destruct (canonizar_mes c) eqn:E; [| reflexivity].
    exfalso. apply Hc, canonizar_mes_reconhece. congruence.
  - intros parse_numeric t df Hret Hok.
    split; [now apply processar_dados_corpo_registros |].
    intros raw H. unfold mantida. now rewrite H.
  - intros parse_numeric t out df out' r Hret Hp Hr.
    rewrite processar_dados_casos in Hp.
    destruct (processar_dados_corpo parse_numeric t) as [e | df'] eqn:Hok;
      injection Hp as <- <-; [contradiction |].
    rewrite (processar_dados_corpo_registros _ _ _ Hret Hok) in Hr.
    apply in_map_iff in Hr as [raw [<- Hraw]].
    apply filter_In in Hraw as [Hin Hk].
    unfold mantida in Hk. apply andb_true_iff in Hk as [Hk _].
    apply tem_valor_true in Hk.
    destruct (canonizar_mes_reconhece _ Hk) as [m [s [Ec [Hm Hg]]]].
    exists raw, m, s. repeat split; try assumption.
    simpl. rewrite Ec. now apply canonizar_mes_grafia.
Qed.

Lemma canonizacao_dos_meses_witness :
  canonizar_mes (txt " Mar ") = Some (Str marco) /\ In marco ORDEM_MESES.
Proof.
  apply (proj1 canonizacao_dos_meses "mar" " Mar ").
  - right. right. right. right. right. right. right. right. right. right.
    right. right. right. right. left. reflexivity.
  - exists " ", "Mar", " ". repeat split.
    apply (vc_maiuscula "m"). apply vc_igual. apply vc_igual. apply vc_vazio.
Defined.

(** ** Results on the filling of missing cells *)

Lemma quadro_exemplo_eq :
  processar_dados_corpo sem_parser tabela_exemplo = inr quadro_exemplo /\
  registros quadro_exemplo = df_exemplo.
Proof. split; now vm_compute. Qed.

(** C8, as the claim states it, fails: the example table has the column of
    the causal factor, its first row is kept, and the causal factor of
    that row is still missing after normalisation. *)
Lemma fato_gerador_ausente_contra :
  str_in "fato_gerador_fato_gerador" (normalizar_colunas (columns tabela_exemplo))
    = true /\
  processar_dados sem_parser tabela_exemplo [] = (inr quadro_exemplo, []) /\
  map fato_gerador_fato_gerador (registros quadro_exemplo) =
    [ None; txt "Sistema"; txt "Sistema"; txt "Sistema"; txt "Sistema" ] /\
  In None (map fato_gerador_fato_gerador (registros quadro_exemplo)).
Proof. repeat split; try now vm_compute. vm_compute. auto. Qed.

(** C8, amended. When the table has the column of the causal factor and
    normalisation does not fail, the causal factor of every record kept is
    the cell of the input row, unchanged: a missing cell stays missing.
    Year, month, segment, channel, nature and reason of every record kept
    are not missing. *)
Theorem fato_gerador_presente_inalterado (parse_numeric : string -> option float64)
    (t df : DataFrame) :
  retangular t ->
  str_in "fato_gerador_fato_gerador" (normalizar_colunas (columns t)) = true ->
  processar_dados_corpo parse_numeric t = inr df ->
  map fato_gerador_fato_gerador (registros df) =
    map (coluna (renomeada t) "fato_gerador_fato_gerador")
        (filter (mantida parse_numeric t) (rows t)) /\
  Forall (fun r => ano r <> None /\ mes r <> None /\ segmento r <> None /\
                   ds_canal r <> None /\ natureza r <> None /\ motivo r <> None)
         (registros df).
Proof.
  intros Hret Hf Hok.
  rewrite (processar_dados_corpo_registros _ _ _ Hret Hok). split.
  - rewrite map_map. apply map_ext. intros raw.
    unfold normalizar_linha. cbn [fato_gerador_fato_gerador].
    change (columns (renomeada t)) with (normalizar_colunas (columns t)).
    now rewrite Hf.
  - apply Forall_forall. intros r Hr.
    apply in_map_iff in Hr as [raw [<- Hraw]].
    apply filter_In in Hraw as [_ Hk].
    unfold mantida in Hk. apply andb_true_iff in Hk as [Hm Ha].
    apply tem_valor_true in Hm, Ha.
    unfold normalizar_linha. cbn [ano mes segmento ds_canal natureza motivo].
    repeat split; auto using fillna_desconhecido.
Qed.

Lemma fato_gerador_presente_inalterado_witness :
  map fato_gerador_fato_gerador (registros quadro_exemplo) =
    map (coluna (renomeada tabela_exemplo) "fato_gerador_fato_gerador")
        (filter (mantida sem_parser tabela_exemplo) (rows tabela_exemplo)).
Proof.
  apply (fato_gerador_presente_inalterado sem_parser tabela_exemplo quadro_exemplo).
  - repeat constructor.
  - now vm_compute.
  - now vm_compute.
Defined.

(** ** Further results on normalisation *)

Lemma str_in_preencher (df : DataFrame) (col name : string) :
  str_in name (columns df) = true \/ name = col ->
  str_in name (columns (preencher df col)) = true.
Proof.
  rewrite columns_preencher. intros [-> | ->]; [reflexivity |].
  rewrite String.eqb_refl. apply orb_true_r.
Qed.

Lemma str_in_completar (df : DataFrame) (name : string) :
  str_in name (columns df) = true \/
  In name ["segmento"; "ds_canal"; "natureza"; "motivo"; "fato_gerador_fato_gerador"] ->
  str_in name (columns (completar df)) = true.
Proof.
  intros H. unfold completar. cbn [fold_left].
  set (d4 := preencher (preencher (preencher (preencher df "segmento") "ds_canal")
                                  "natureza") "motivo").
  assert (H4 : str_in name (columns d4) = true \/ name = "fato_gerador_fato_gerador").
  { unfold d4. simpl in H.
    destruct H as [H | [<- | [<- | [<- | [<- | [<- | []]]]]]];
      [ left | left | left | left | left | right; reflexivity ];
      repeat first [ assumption
                   | apply str_in_preencher;
                     first [ right; reflexivity | left ] ]. }
  destruct (str_in "fato_gerador_fato_gerador" (columns d4)) eqn:E.
  - destruct H4 as [H4 | ->]; assumption.
  - apply (str_in_preencher d4 "fato_gerador_fato_gerador") in H4.
    unfold preencher in H4. now rewrite E in H4.
Qed.

Lemma retangular_completar (df : DataFrame) :
  retangular df -> retangular (completar df).
Proof.
  unfold retangular. intros H.
  destruct (passo_completar df) as [g [f [[Hrows Hcol] _]]].
  rewrite Hrows. apply Forall_map. eapply Forall_impl; [| exact H].
  intros r Hr. now apply Hcol.
Qed.

(** X1. After a normalisation that does not fail, the frame has one cell per
    column in every row and has all seven columns that the report reads. *)
Theorem processar_dados_colunas (parse_numeric : string -> option float64)
    (t df : DataFrame) :
  retangular t ->
  processar_dados_corpo parse_numeric t = inr df ->
  retangular df /\
  Forall (fun name => str_in name (columns df) = true)
         ["ano"; "mes"; "segmento"; "ds_canal"; "natureza"; "motivo";
          "fato_gerador_fato_gerador"].
Proof.
  intros Hret Hok.
  destruct (processar_dados_corpo_inversao _ _ _ Hok) as [ia [im [Ea [Em ->]]]].
  split.
  - apply retangular_completar. unfold retangular, dropna. cbn [rows columns].
    apply Forall_forall. intros r Hr. apply filter_In in Hr as [Hr _].
    apply in_map_iff in Hr as [r1 [<- Hr]]. apply in_map_iff in Hr as [raw [<- Hr]].
    rewrite !length_substituir, length_normalizar_colunas.
    unfold retangular in Hret. rewrite Forall_forall in Hret. now apply Hret.
  - assert (Ha : str_in "ano" (normalizar_colunas (columns t)) = true).
    { destruct (str_in "ano" _) eqn:E; [reflexivity |].
      apply posicoes_vazio in E. congruence. }
    assert (Hm : str_in "mes" (normalizar_colunas (columns t)) = true).
    { destruct (str_in "mes" _) eqn:E; [reflexivity |].
      apply posicoes_vazio in E. congruence. }
    repeat constructor; apply str_in_completar;
      solve [ left; assumption | right; simpl; tauto ].
Qed.

Lemma processar_dados_colunas_witness :
  retangular quadro_exemplo /\
  Forall (fun name => str_in name (columns quadro_exemplo) = true)
         ["ano"; "mes"; "segmento"; "ds_canal"; "natureza"; "motivo";
          "fato_gerador_fato_gerador"].
Proof.
  apply (processar_dados_colunas sem_parser tabela_exemplo quadro_exemplo).
  - repeat constructor.
  - now vm_compute.
Defined.

(** X2. In a normalisation that does not fail, each of segment, channel,
    nature and reason of a record kept is the cell of the input row when
    the row has one, and "desconhecido" when the cell is missing or the
    table has no such column; these gaps remove no row: there are as many
    records as rows with a month and a year. *)
Theorem categorias_preenchidas (parse_numeric : string -> option float64)
    (t df : DataFrame) :
  retangular t ->
  processar_dados_corpo parse_numeric t = inr df ->
  List.length (registros df) =
    List.length (filter (mantida parse_numeric t) (rows t)) /\
  Forall2 (fun raw r =>
             forall name campo,
               In (name, campo)
                  [("segmento", segmento); ("ds_canal", ds_canal);
                   ("natureza", natureza); ("motivo", motivo)] ->
               campo r = match coluna (renomeada t) name raw with
                         | Some v => Some v
                         | None => desconhecido
                         end)
          (filter (mantida parse_numeric t) (rows t)) (registros df).
Proof.
  intros Hret Hok.
  rewrite (processar_dados_corpo_registros _ _ _ Hret Hok).
  split; [apply length_map |].
  induction (filter (mantida parse_numeric t) (rows t)) as [| raw l IH];
    simpl; constructor; [| exact IH].
  intros name campo H. simpl in H.
  destruct H as [[= <- <-] | [[= <- <-] | [[= <- <-] | [[= <- <-] | []]]]];
    unfold normalizar_linha;
    cbn [segmento ds_canal natureza motivo];
    match goal with |- context [coluna ?d ?n ?r] => destruct (coluna d n r) end;
    reflexivity.
Qed.

Lemma categorias_preenchidas_witness :
  List.length (registros quadro_exemplo) =
    List.length (filter (mantida sem_parser tabela_exemplo) (rows tabela_exemplo)).
Proof.
  apply (categorias_preenchidas sem_parser tabela_exemplo quadro_exemplo).
  - repeat constructor.
  - now vm_compute.
Defined.

(** X3. In a normalisation that does not fail on a table without the column of
    the causal factor, every record kept has the causal factor
    "desconhecido". *)
Theorem fato_gerador_ausente_desconhecido (parse_numeric : string -> option float64)
    (t df : DataFrame) :
  retangular t ->
  str_in "fato_gerador_fato_gerador" (normalizar_colunas (columns t)) = false ->
  processar_dados_corpo parse_numeric t = inr df ->
  Forall (fun r => fato_gerador_fato_gerador r = desconhecido) (registros df).
Proof.
  intros Hret Hf Hok.
  rewrite (processar_dados_corpo_registros _ _ _ Hret Hok).
  apply Forall_map, Forall_forall. intros raw _.
  unfold normalizar_linha. cbn [fato_gerador_fato_gerador].
  change (columns (renomeada t)) with (normalizar_colunas (columns t)).
  now rewrite Hf.
Qed.

Lemma fato_gerador_ausente_desconhecido_witness :
  Forall (fun r => fato_gerador_fato_gerador r = desconhecido)
         (registros quadro_minimo).
Proof.
  apply (fato_gerador_ausente_desconhecido sem_parser tabela_minima quadro_minimo).
  - repeat constructor.
  - now vm_compute.
  - now vm_compute.
Defined.

Lemma canonizar_mes_categoria (c : cell) (v : valor) :
  canonizar_mes c = Some v -> exists m, v = Str m /\ In m ORDEM_MESES.
Proof.
  unfold canonizar_mes, categorical.
  destruct (replace_meses (lower_strip c)) as [[z | m] |]; try discriminate.
  destruct (str_in m ORDEM_MESES) eqn:E; [| discriminate].
  intros [= <-]. exists m. split; [reflexivity | now apply str_in_In].
Qed.

(** X4. Every record that [processar_dados] returns has a whole number as year
    and one of the twelve month names as month. *)
Theorem periodo_valido (parse_numeric : string -> option float64)
    (t df : DataFrame) (out out' : list evento) :
  retangular t ->
  processar_dados parse_numeric t out = (inr df, out') ->
  Forall (fun r => (exists z, ano r = Some (Int z)) /\
                   (exists m, mes r = Some (Str m) /\ In m ORDEM_MESES))
         (registros df).
Proof.
  intros Hret Hp. rewrite processar_dados_casos in Hp.
  destruct (processar_dados_corpo parse_numeric t) as [e | df'] eqn:Hok;
    injection Hp as <- <-; [constructor |].
  rewrite (processar_dados_corpo_registros _ _ _ Hret Hok).
  apply Forall_map, Forall_forall. intros raw Hraw.
  apply filter_In in Hraw as [_ Hk].
  unfold mantida in Hk. apply andb_true_iff in Hk as [Hm Ha].
  unfold normalizar_linha. cbn [ano mes]. split.
  - unfold ano_Int64 in *.
    destruct (to_numeric parse_numeric _) as [[q | s] |]; try discriminate Ha.
    simpl. eauto.
  - destruct (canonizar_mes _) as [v |] eqn:E; [| discriminate Hm].
    destruct (canonizar_mes_categoria _ _ E) as [m [-> Hin]]. eauto.
Qed.

Lemma periodo_valido_witness :
  Forall (fun r => (exists z, ano r = Some (Int z)) /\
                   (exists m, mes r = Some (Str m) /\ In m ORDEM_MESES))
         (registros quadro_exemplo).
Proof.
  apply (periodo_valido sem_parser tabela_exemplo quadro_exemplo [] []).
  - repeat constructor.
  - now vm_compute.
Defined.

(** X5. Canonising a month a second time changes nothing: the twelve names are
    fixed points of lines 37-46. *)
Theorem canonizar_mes_idempotente (c : cell) :
  canonizar_mes (canonizar_mes c) = canonizar_mes c.
Proof.
  destruct (canonizar_mes c) as [v |] eqn:E; [| reflexivity].
  destruct (canonizar_mes_categoria _ _ E) as [m [-> Hin]].
  simpl in Hin.
  repeat (destruct Hin as [<- | Hin]; [now vm_compute |]). contradiction.
Qed.

Lemma posicoes_distintas (cols : list string) (n1 n2 : string) (i1 i2 : nat)
    (l1 l2 : list nat) :
  posicoes n1 cols = i1 :: l1 -> posicoes n2 cols = i2 :: l2 -> n1 <> n2 -> i1 <> i2.
Proof.
  intros H1 H2 Hn ->. apply posicoes_nth in H1, H2. congruence.
Qed.

Lemma forallb_map {A B} (f : A -> B) (p : B -> bool) (l : list A) :
  forallb p (map f l) = forallb (fun a => p (f a)) l.
Proof. induction l as [| a l IH]; simpl; congruence. Qed.

Lemma processar_dados_corpo_formula (parse_numeric : string -> option float64)
    (t : DataFrame) (ia im : nat) :
  posicoes "ano" (normalizar_colunas (columns t)) = [ia] ->
  posicoes "mes" (normalizar_colunas (columns t)) = [im] ->
  processar_dados_corpo parse_numeric t =
    if forallb (fun raw => ano_aceito parse_numeric (celula ia raw)) (rows t)
    then if dtype_object (map (celula im) (rows t))
         then inr (completar
                     (dropna
                        (mkDF (normalizar_colunas (columns t))
                           (map (fun r => substituir im (canonizar_mes (celula im r)) r)
                              (map (fun r => substituir ia
                                               (ano_Int64 parse_numeric (celula ia r)) r)
                                   (rows t))))
                        ["mes"; "ano"]))
         else inl AttributeError
    else inl TypeError.
Proof.
  intros Ea Em.
  unfold processar_dados_corpo. fold (renomeada t).
  unfold getitem at 1.
  change (columns (renomeada t)) with (normalizar_colunas (columns t)).
  rewrite Ea. unfold bind at 1, ret at 1, converter_ano, astype_Int64.
  change (rows (renomeada t)) with (rows t).
  rewrite map_map, forallb_map.
  change (fun x => match to_numeric parse_numeric (celula ia x) with
                   | Some v => integral v && em_Int64 v
                   | None => true
                   end)
    with (fun raw => ano_aceito parse_numeric (celula ia raw)).
  destruct (forallb _ (rows t)); [| reflexivity].
  unfold bind at 1, ret at 1. rewrite map_map.
  pose proof (setitem_presente (renomeada t) "ano" ia []
                (fun r => ano_Int64 parse_numeric (celula ia r)) Ea) as E1.
  match goal with
  | |- context [setitem (renomeada t) "ano" ?v] =>
      change (setitem (renomeada t) "ano" v)
        with (setitem (renomeada t) "ano"
                (map (fun r => ano_Int64 parse_numeric (celula ia r))
                     (rows (renomeada t))))
  end.
  rewrite E1. clear E1. cbv beta. cbn [rows columns renomeada].
  unfold getitem. cbn [columns]. rewrite Em.
  unfold bind at 1, ret at 1, str_accessor. cbn [rows].
  assert (Hcel : map (celula im)
                     (map (fun r => substituir ia
                                      (ano_Int64 parse_numeric (celula ia r)) r)
                          (rows t)) =
                 map (celula im) (rows t)).
  { rewrite map_map. apply map_ext. intros r. apply celula_substituir_outra.
    eapply posicoes_distintas; [exact Ea | exact Em | discriminate]. }
  rewrite Hcel.
  destruct (dtype_object _); [| reflexivity].
  unfold bind, ret.
  pose proof (setitem_presente
                (mkDF (normalizar_colunas (columns t))
                      (map (fun r => substituir ia
                                       (ano_Int64 parse_numeric (celula ia r)) r)
                           (rows t)))
                "mes" im [] (fun r => canonizar_mes (celula im r)) Em) as E2.
  rewrite <- (map_map (celula im) canonizar_mes) in E2.
  cbn [rows columns] in E2. rewrite Hcel in E2.
  rewrite E2. reflexivity.
Qed.

Lemma processar_dados_corpo_sucesso (parse_numeric : string -> option float64)
    (t df : DataFrame) :
  processar_dados_corpo parse_numeric t = inr df ->
  exists ia im,
    posicoes "ano" (normalizar_colunas (columns t)) = [ia] /\
    posicoes "mes" (normalizar_colunas (columns t)) = [im] /\
    forallb (fun raw => ano_aceito parse_numeric (celula ia raw)) (rows t) = true /\
    dtype_object (map (celula im) (rows t)) = true.
Proof.
  intros Hok.
  destruct (processar_dados_corpo_inversao _ _ _ Hok) as [ia [im [Ea [Em _]]]].
  exists ia, im. rewrite (processar_dados_corpo_formula _ _ _ _ Ea Em) in Hok.
  destruct (forallb _ (rows t)); [| discriminate].
  destruct (dtype_object _); [| discriminate]. auto.
Qed.

Lemma processar_dados_rejeita (parse_numeric : string -> option float64)
    (t : DataFrame) (out : list evento) :
  (forall df, processar_dados_corpo parse_numeric t <> inr df) ->
  exists e, processar_dados parse_numeric t out =
            (inr DataFrame_vazio,
             (out ++ [st_error_ev "Erro no processamento: " e])%list).
Proof.
  intros Hn. rewrite processar_dados_casos.
  destruct (processar_dados_corpo parse_numeric t) as [e | df] eqn:Hok; [eauto |].
  now contradiction (Hn df).
Qed.



(** X7. A table with rows whose month column holds no text (months given as
    numbers, or all missing) is rejected as a whole: one error, the empty
    frame. *)
Theorem meses_sem_texto_rejeitados (parse_numeric : string -> option float64)
    (t : DataFrame) (out : list evento) :
  rows t <> [] ->
  (forall raw s, In raw (rows t) -> coluna (renomeada t) "mes" raw <> Some (Str s)) ->
  exists e, processar_dados parse_numeric t out =
            (inr DataFrame_vazio,
             (out ++ [st_error_ev "Erro no processamento: " e])%list).
Proof.
  intros Hne Hnum.
  apply processar_dados_rejeita. intros df Hok.
  destruct (processar_dados_corpo_sucesso _ _ _ Hok) as [ia [im [_ [Em [_ Hd]]]]].
  unfold dtype_object in Hd.
  destruct (rows t) as [| r0 rs] eqn:Er; [now apply Hne |].
  rewrite <- Er in Hd.
  assert (Hex : existsb (fun c => match c with Some (Str _) => true | _ => false end)
                        (map (celula im) (rows t)) = true).
  { rewrite Er in *. exact Hd. }
  apply existsb_exists in Hex as [c [Hc Hs]].
  apply in_map_iff in Hc as [raw [<- Hraw]].
  rewrite <- Er in Hnum.
  destruct (celula im raw) as [[z | s] |] eqn:Ec; try discriminate.
  apply (Hnum raw s Hraw). unfold coluna. cbn [columns renomeada].
  now rewrite Em.
Qed.

Lemma meses_sem_texto_rejeitados_witness :
  exists e, processar_dados sem_parser
              (mkDF ["ano"; "mes"] [[num 2025; num 1]; [num 2025; num 2]]) [] =
            (inr DataFrame_vazio, [st_error_ev "Erro no processamento: " e]).
Proof.
  apply (meses_sem_texto_rejeitados sem_parser
           (mkDF ["ano"; "mes"] [[num 2025; num 1]; [num 2025; num 2]]) []).
  - discriminate.
  - intros raw s [<- | [<- | []]]; discriminate.
Defined.

(** X8. One year that is a number with a fractional part makes the whole table
    be rejected: one error, the empty frame. *)
Theorem ano_fracionario_rejeitado (parse_numeric : string -> option float64)
    (t : DataFrame) (out : list evento) (raw : list cell) (q : float64) :
  In raw (rows t) ->
  to_numeric parse_numeric (coluna (renomeada t) "ano" raw) = Some q ->
  integral q = false ->
  exists e, processar_dados parse_numeric t out =
            (inr DataFrame_vazio,
             (out ++ [st_error_ev "Erro no processamento: " e])%list).
Proof.
  intros Hraw Hq Hi.
  apply processar_dados_rejeita. intros df Hok.
  destruct (processar_dados_corpo_sucesso _ _ _ Hok) as [ia [im [Ea [_ [Ha _]]]]].
  rewrite forallb_forall in Ha. specialize (Ha raw Hraw).
  unfold ano_aceito in Ha. unfold coluna in Hq. cbn [columns renomeada] in Hq.
  rewrite Ea in Hq. rewrite Hq, Hi in Ha. discriminate Ha.
Qed.

Lemma ano_fracionario_rejeitado_witness :
  exists e, processar_dados parser_fracao
              (mkDF ["ano"; "mes"] [[num 2025; txt "jan"]; [txt "2024.5"; txt "fev"]]) [] =
            (inr DataFrame_vazio, [st_error_ev "Erro no processamento: " e]).
Proof.
  apply (ano_fracionario_rejeitado parser_fracao
           (mkDF ["ano"; "mes"] [[num 2025; txt "jan"]; [txt "2024.5"; txt "fev"]]) []
           [txt "2024.5"; txt "fev"] (Finito (4049 # 2))).
  - right. left. reflexivity.
  - reflexivity.
  - reflexivity.
Defined.

(** ** Further results on column names *)

Lemma isspace_lower_char (c : ascii) : isspace (lower_char c) = isspace c.
Proof. destruct c as [[] [] [] [] [] [] [] []]; reflexivity. Qed.

Lemma lower_char_idem (c : ascii) : lower_char (lower_char c) = lower_char c.
Proof. destruct c as [[] [] [] [] [] [] [] []]; reflexivity. Qed.

Lemma lower_idem (s : string) : lower (lower s) = lower s.
Proof.
  induction s as [| c s IH]; simpl; [reflexivity |].
  now rewrite lower_char_idem, IH.
Qed.

Lemma lower_lstrip (s : string) : lower (lstrip s) = lstrip (lower s).
Proof.
  induction s as [| c s IH]; simpl; [reflexivity |].
  rewrite isspace_lower_char. destruct (isspace c); [exact IH | reflexivity].
Qed.

Lemma lower_rstrip (s : string) : lower (rstrip s) = rstrip (lower s).
Proof.
  induction s as [| c s IH]; simpl; [reflexivity |].
  rewrite <- IH, isspace_lower_char.
  destruct (rstrip s) as [| d r]; simpl; [| reflexivity].
  now destruct (isspace c).
Qed.

Lemma lstrip_idem (s : string) : lstrip (lstrip s) = lstrip s.
Proof.
  induction s as [| c s IH]; simpl; [reflexivity |].
  destruct (isspace c) eqn:E; [exact IH |]. simpl. now rewrite E.
Qed.

Lemma rstrip_idem (s : string) : rstrip (rstrip s) = rstrip s.
Proof.
  induction s as [| c s IH]; simpl; [reflexivity |].
  destruct (rstrip s) as [| d r] eqn:R.
  - destruct (isspace c) eqn:E; simpl; [reflexivity | now rewrite E].
  - change (rstrip (String c (String d r))) with
      (match rstrip (String d r) with
       | EmptyString => if isspace c then EmptyString else String c EmptyString
       | x => String c x
       end).
    now rewrite IH.
Qed.

Lemma rstrip_lstrip (r : string) : rstrip r = r -> rstrip (lstrip r) = lstrip r.
Proof.
  induction r as [| c r IH]; simpl; [reflexivity |].
  intros H. destruct (isspace c) eqn:E.
  - apply IH. destruct (rstrip r) as [| d x].
    + discriminate H.
    + now injection H.
  - simpl. rewrite E. exact H.
Qed.

Lemma strip_idem (s : string) : strip (strip s) = strip s.
Proof.
  unfold strip. rewrite (rstrip_lstrip (rstrip s) (rstrip_idem s)).
  apply lstrip_idem.
Qed.

Lemma normalizar_nome_idem (c : string) :
  strip (lower (strip (lower c))) = strip (lower c).
Proof.
  unfold strip at 2. rewrite lower_lstrip, lower_rstrip, lower_idem.
  apply strip_idem.
Qed.

Lemma rename_sem_antigo (old new : string) (l : list string) :
  old <> new -> str_in old (rename old new l) = false.
Proof.
  intros Hne. unfold str_in, rename.
  induction l as [| c l IH]; simpl; [reflexivity |]. rewrite IH.
  destruct (String.eqb_spec c old) as [-> | Hc].
  - apply orb_false_iff. split; [| reflexivity]. now apply String.eqb_neq.
  - apply orb_false_iff. split; [| reflexivity]. apply String.eqb_neq. congruence.
Qed.

(** X9. Lines 30-33 keep the number of columns, leave no column under the
    accented name of the month, and change nothing when applied to their
    own result. *)
Theorem normalizar_colunas_estavel (cols : list string) :
  List.length (normalizar_colunas cols) = List.length cols /\
  str_in mes_acentuado (normalizar_colunas cols) = false /\
  normalizar_colunas (normalizar_colunas cols) = normalizar_colunas cols.
Proof.
  split; [apply length_normalizar_colunas |].
  assert (Hsem : str_in mes_acentuado (normalizar_colunas cols) = false).
  { unfold normalizar_colunas.
    destruct (str_in mes_acentuado (map _ cols)) eqn:E; [| exact E].
    apply rename_sem_antigo. discriminate. }
  split; [exact Hsem |].
  assert (Hfix : map (fun c => strip (lower c)) (normalizar_colunas cols) =
                 normalizar_colunas cols).
  { unfold normalizar_colunas.
    destruct (str_in mes_acentuado (map _ cols)).
    - unfold rename. rewrite !map_map. apply map_ext. intros c.
      destruct (String.eqb _ mes_acentuado); [reflexivity |].
      apply normalizar_nome_idem.
    - rewrite map_map. apply map_ext. intros c. apply normalizar_nome_idem. }
  unfold normalizar_colunas at 1. rewrite Hfix, Hsem. reflexivity.
Qed.

(** ** Further results on the report *)

Lemma analise_natureza_total (df_atual df_anterior : list registro) (s : valor) :
  exists d, analise_natureza df_atual df_anterior s = inr d.
Proof.
  unfold analise_natureza.
  set (a := do_segmento s df_atual). set (b := do_segmento s df_anterior).
  destruct (mapM_total (expander a b) _ (reducoes (naturezas_positivas a b))
              (expander_total a b)) as [red [Er _]].
  destruct (mapM_total (expander a b) _ (aumentos (naturezas_positivas a b))
              (expander_total a b)) as [aum [Ea _]].
  rewrite Er, Ea. simpl. eauto.
Qed.

Lemma segmentos_NoDup (df : list registro) : NoDup (segmentos df).
Proof. apply unique_NoDup. Qed.

Lemma analisar_total (df : list registro)
    (mes_atual : string) (ano_atual : Z) (mes_anterior : string) (ano_anterior : Z) :
  exists r, analisar df mes_atual ano_atual mes_anterior ano_anterior = inr r.
Proof.
  unfold analisar.
  set (a := periodo df mes_atual ano_atual).
  set (b := periodo df mes_anterior ano_anterior).
  destruct (variacao_total a b) as [q Eq]. rewrite Eq. simpl.
  destruct (mapM_total
              (fun s => d <- analise_natureza a b s ;; ret (s, d))
              (fun s sd => fst sd = s) (segmentos df)) as [dets [Ed _]].
  { intros s. destruct (analise_natureza_total a b s) as [d E].
    rewrite E. simpl. eauto. }
  rewrite Ed. simpl. eauto.
Qed.

Lemma empty_false (df : DataFrame) :
  columns df <> [] -> rows df <> [] -> empty df = false.
Proof.
  unfold empty. destruct (columns df), (rows df); congruence.
Qed.

(** X10. The report of lines 89-254 never raises, whatever the frame and the
    two periods selected. Its two sections have one heading per segment
    of the whole frame, the same in both, each once, including segments
    without a record in either period; the totals are the sizes of the
    two subsets. *)
Theorem analisar_nunca_falha (df : list registro)
    (mes_atual : string) (ano_atual : Z) (mes_anterior : string) (ano_anterior : Z) :
  exists r,
    analisar df mes_atual ano_atual mes_anterior ano_anterior = inr r /\
    total_atual r = len (periodo df mes_atual ano_atual) /\
    total_anterior r = len (periodo df mes_anterior ano_anterior) /\
    map fst (por_segmento_e_canal r) = segmentos df /\
    map fst (por_natureza r) = segmentos df /\
    NoDup (segmentos df) /\
    (forall s, In s (segmentos df) <-> In (Some s) (map segmento df)).
Proof.
  unfold analisar.
  set (a := periodo df mes_atual ano_atual).
  set (b := periodo df mes_anterior ano_anterior).
  destruct (variacao_total a b) as [q Eq]. rewrite Eq. simpl.
  destruct (mapM_total
              (fun s => d <- analise_natureza a b s ;; ret (s, d))
              (fun s sd => fst sd = s) (segmentos df)) as [dets [Ed Fd]].
  { intros s. destruct (analise_natureza_total a b s) as [d E].
    rewrite E. simpl. eauto. }
  rewrite Ed. simpl. eexists. split; [reflexivity |]. simpl.
  repeat split.
  - unfold analise_segmento_canal. rewrite map_map. simpl. apply map_id.
  - rewrite <- (map_id (segmentos df)). now apply Forall2_map_eq.
  - apply segmentos_NoDup.
  - unfold segmentos. rewrite unique_In, dropna_valores_In. tauto.
  - unfold segmentos. rewrite unique_In, dropna_valores_In. tauto.
Qed.

Lemma processar_dados_corpo_tem_colunas (parse_numeric : string -> option float64)
    (t df : DataFrame) :
  processar_dados_corpo parse_numeric t = inr df -> columns df <> [].
Proof.
  intros Hok E.
  destruct (processar_dados_corpo_inversao _ _ _ Hok) as [ia [im [Ea [_ ->]]]].
  assert (H : str_in "ano" (columns (completar
            (dropna
               (mkDF (normalizar_colunas (columns t))
                     (map (fun r => substituir im (canonizar_mes (celula im r)) r)
                          (map (fun r => substituir ia
                                           (ano_Int64 parse_numeric (celula ia r)) r)
                               (rows t))))
               ["mes"; "ano"]))) = true).
  { apply str_in_completar. left. cbn [columns dropna].
    destruct (str_in "ano" _) eqn:E'; [reflexivity |].
    apply posicoes_vazio in E'. congruence. }
  rewrite E in H. discriminate H.
Qed.

(** X11. From the uploaded table to the report, nothing is raised when no
    two column names of the table are the same after normalisation. When
    normalisation of such a table succeeds and keeps a row, the report of
    the kept records is produced and nothing is written as an error; when
    normalisation of any table fails or keeps no row, no report is
    produced. *)
Theorem relatorio_do_arquivo_nunca_falha (parse_numeric : string -> option float64)
    (t : DataFrame)
    (mes_atual : string) (ano_atual : Z) (mes_anterior : string) (ano_anterior : Z)
    (out : list evento) :
  (forall df,
     NoDup (normalizar_colunas (columns t)) ->
     processar_dados_corpo parse_numeric t = inr df -> rows df <> [] ->
     exists r,
       analisar (registros df) mes_atual ano_atual mes_anterior ano_anterior = inr r /\
       relatorio_do_arquivo parse_numeric t mes_atual ano_atual
                            mes_anterior ano_anterior out = (inr (Some r), out)) /\
  ((forall df, processar_dados_corpo parse_numeric t = inr df -> rows df = []) ->
   exists out',
     relatorio_do_arquivo parse_numeric t mes_atual ano_atual
                          mes_anterior ano_anterior out = (inr None, out')).
Proof.
  unfold relatorio_do_arquivo, ui_bind. rewrite processar_dados_casos. split.
  - intros df _ Hok Hrows. rewrite Hok.
    pose proof (processar_dados_corpo_tem_colunas _ _ _ Hok) as Hcols.
    rewrite (empty_false df Hcols Hrows).
    destruct (analisar_total (registros df) mes_atual ano_atual
                             mes_anterior ano_anterior) as [r E].
    exists r. split; [exact E |]. unfold lift, ui_ret. now rewrite E.
  - intros H. destruct (processar_dados_corpo parse_numeric t) as [e | df] eqn:Hok.
    + eexists. reflexivity.
    + unfold empty. rewrite (H df eq_refl). unfold ui_ret.
      destruct (columns df); eauto.
Qed.

Lemma relatorio_do_arquivo_nunca_falha_witness :
  exists r,
    analisar (registros quadro_minimo) "janeiro" 2025 "janeiro" 2024 = inr r /\
    relatorio_do_arquivo sem_parser tabela_minima "janeiro" 2025 "janeiro" 2024 [] =
      (inr (Some r), []).
Proof.
  apply (proj1 (relatorio_do_arquivo_nunca_falha sem_parser tabela_minima
                  "janeiro" 2025 "janeiro" 2024 []) quadro_minimo).
  - vm_compute. repeat constructor; simpl; intuition discriminate.
  - now vm_compute.
  - vm_compute. discriminate.
Defined.

Lemma len_pos (d : list registro) : d <> [] -> 0 < len d.
Proof. destruct d; [congruence | unfold len; simpl; lia]. Qed.

(** X12. When the reference period has records, the percentage of the general
    summary is the one the variation calculator gives for the two totals,
    and the colour of the bar agrees with its sign: red exactly when it is
    positive, green exactly when it is negative, grey exactly when it is
    zero. *)
Theorem resumo_geral_coerente (df_atual df_anterior : list registro) :
  df_anterior <> [] ->
  let p := percentual (len df_atual) (len df_anterior) in
  variacao df_atual df_anterior = inr p /\
  (exists d, analisar_variacao (len df_atual) (len df_anterior) = inr (p, d)) /\
  (color_atual df_atual df_anterior = "#f44336" <-> (0 < p)%Q) /\
  (color_atual df_atual df_anterior = "#4CAF50" <-> (p < 0)%Q) /\
  (color_atual df_atual df_anterior = "gray" <-> (p == 0)%Q).
Proof.
  intros Hne p. pose proof (len_pos _ Hne) as Hpos.
  split; [| split].
  - unfold variacao, truediv.
    destruct (Z.eqb_spec (len df_anterior) 0) as [E | _]; [lia | reflexivity].
  - rewrite analisar_variacao_direcao by assumption. eauto.
  - pose proof (percentual_sinal (len df_atual) (len df_anterior) Hpos) as Hs.
    fold p in Hs. unfold color_atual.
    rewrite (Qgt_alt p 0), (Qlt_alt p 0), (Qeq_alt p 0), Hs.
    destruct (Z.gtb_spec (len df_atual - len df_anterior) 0) as [Hg | Hg].
    + assert (C : (len df_atual ?= len df_anterior) = Gt) by (apply Z.compare_gt_iff; lia).
      rewrite C. repeat split; intros; congruence.
    + destruct (Z.ltb_spec (len df_atual - len df_anterior) 0) as [Hl | Hl].
      * assert (C : (len df_atual ?= len df_anterior) = Lt) by (apply Z.compare_lt_iff; lia).
        rewrite C. repeat split; intros; congruence.
      * assert (C : (len df_atual ?= len df_anterior) = Eq) by (apply Z.compare_eq_iff; lia).
        rewrite C. repeat split; intros; congruence.
Qed.

Lemma resumo_geral_coerente_witness :
  variacao (periodo df_exemplo "janeiro" 2025) (periodo df_exemplo "dezembro" 2024) =
    inr (percentual (len (periodo df_exemplo "janeiro" 2025))
                    (len (periodo df_exemplo "dezembro" 2024))).
Proof.
  apply (resumo_geral_coerente (periodo df_exemplo "janeiro" 2025)
                               (periodo df_exemplo "dezembro" 2024)).
  vm_compute. discriminate.
Defined.

(** ** Further results on counting *)

Lemma soma_map_add {A} (f g : A -> Z) (l : list A) :
  soma (map (fun a => f a + g a) l) = soma (map f l) + soma (map g l).
Proof.
  unfold soma. induction l as [| a l IH]; simpl; lia.
Qed.

Lemma soma_indicador (x : valor) (l : list valor) :
  NoDup l -> In x l ->
  soma (map (fun k => if valor_eqb k x then 1 else 0) l) = 1.
Proof.
  unfold soma. induction 1 as [| y l Hy Hnd IH]; simpl; [contradiction |].
  intros [-> | Hin].
  - rewrite valor_eqb_refl.
    assert (E : fold_right Z.add 0 (map (fun k => if valor_eqb k x then 1 else 0) l) = 0).
    { clear IH Hnd. induction l as [| z l IHl]; simpl; [reflexivity |].
      destruct (valor_eqb z x) eqn:E.
      - apply valor_eqb_eq in E as ->. exfalso. apply Hy. now left.
      - apply IHl. intros H. apply Hy. now right. }
    lia.
  - destruct (valor_eqb y x) eqn:E.
    + apply valor_eqb_eq in E as ->. contradiction.
    + rewrite (IH Hin). lia.
Qed.

Lemma valor_eqb_sym (a b : valor) : valor_eqb a b = valor_eqb b a.
Proof.
  destruct a, b; simpl; auto using Z.eqb_sym, String.eqb_sym.
Qed.

Lemma ocorrencias_cons (k : valor) (c : cell) (col : list cell) :
  ocorrencias k (c :: col) =
  (match c with
   | Some x => if valor_eqb k x then 1 else 0
   | None => 0
   end) + ocorrencias k col.
Proof.
  unfold ocorrencias. simpl.
  destruct c as [x |]; simpl; [| lia].
  rewrite (valor_eqb_sym x k).
  destruct (valor_eqb k x); cbn [List.length]; rewrite ?Nat2Z.inj_succ; lia.
Qed.

Lemma soma_zeros {A} (l : list A) : soma (map (fun _ => 0) l) = 0.
Proof. unfold soma. induction l; simpl; lia. Qed.

Lemma soma_map_sub {A} (f g : A -> Z) (l : list A) :
  soma (map (fun a => f a - g a) l) = soma (map f l) - soma (map g l).
Proof.
  unfold soma. induction l as [| a l IH]; simpl; lia.
Qed.

Lemma soma_ocorrencias (l : list valor) (col : list cell) :
  NoDup l -> (forall k, In (Some k) col -> In k l) ->
  soma (map (fun k => ocorrencias k col) l) =
  Z.of_nat (List.length (dropna_valores col)).
Proof.
  intros Hnd. induction col as [| c col IH]; intros Hcov.
  - apply soma_zeros.
  - erewrite map_ext by (intros k; apply ocorrencias_cons).
    rewrite soma_map_add, IH by (intros k Hk; apply Hcov; now right).
    destruct c as [x |].
    + rewrite soma_indicador by (auto; apply Hcov; now left).
      cbn [dropna_valores List.length]. rewrite Nat2Z.inj_succ. lia.
    + rewrite soma_zeros. cbn [dropna_valores]. lia.
Qed.

Lemma dropna_valores_completo (col : list cell) :
  Forall (fun c => c <> None) col ->
  List.length (dropna_valores col) = List.length col.
Proof.
  induction 1 as [| c col Hc _ IH]; simpl; [reflexivity |].
  destruct c; [simpl; congruence | congruence].
Qed.

Lemma soma_por_rotulo (ca cb : list cell) (l : list valor) :
  NoDup l ->
  (forall k, In k l <-> In (Some k) ca \/ In (Some k) cb) ->
  soma (map (fun k => ocorrencias k ca) l) =
    Z.of_nat (List.length (dropna_valores ca)) /\
  soma (map (fun k => ocorrencias k cb) l) =
    Z.of_nat (List.length (dropna_valores cb)).
Proof.
  intros Hnd Hin. split; apply soma_ocorrencias; auto; intros k Hk;
    apply Hin; auto.
Qed.

(** X13. Counts are conserved by the aggregation of lines 153-162 and 204-206:
    in a comparison table the column "Atual" adds up to the number of
    current records that have a value, "Anterior" to the number of
    reference records that have one, and the column of differences, like
    the series of differences, to the difference of the two numbers; when
    no record lacks the value, that is the difference of the sizes of the
    two subsets. *)
Theorem contagens_conservadas (col : registro -> cell)
    (df_atual df_anterior : list registro) :
  let ca := map col df_atual in
  let cb := map col df_anterior in
  let t := comparacao (value_counts ca) (value_counts cb) in
  let s := subtract (value_counts ca) (value_counts cb) in
  let na := Z.of_nat (List.length (dropna_valores ca)) in
  let nb := Z.of_nat (List.length (dropna_valores cb)) in
  soma (map Atual t) = na /\
  soma (map Anterior t) = nb /\
  soma (map Variacao t) = na - nb /\
  soma (map snd s) = na - nb /\
  (Forall (fun r => col r <> None) df_atual ->
   Forall (fun r => col r <> None) df_anterior ->
   soma (map Variacao t) = len df_atual - len df_anterior /\
   soma (map snd s) = len df_atual - len df_anterior).
Proof.
  intros ca cb t s na nb.
  destruct (soma_por_rotulo ca cb
              (uniao (indice (value_counts ca)) (indice (value_counts cb))))
    as [Ua Ub].
  { apply uniao_NoDup; apply value_counts_NoDup. }
  { intros k. now rewrite uniao_In, !value_counts_indice. }
  destruct (soma_por_rotulo ca cb
              (alinhar (indice (value_counts ca)) (indice (value_counts cb))))
    as [Aa Ab].
  { apply alinhar_NoDup; apply value_counts_NoDup. }
  { intros k. now rewrite alinhar_In, !value_counts_indice. }
  assert (T1 : soma (map Atual t) = na).
  { subst t. unfold comparacao. rewrite map_map. simpl.
    erewrite map_ext by (intros k; apply value_counts_get). exact Ua. }
  assert (T2 : soma (map Anterior t) = nb).
  { subst t. unfold comparacao. rewrite map_map. simpl.
    erewrite map_ext by (intros k; apply value_counts_get). exact Ub. }
  assert (T3 : soma (map Variacao t) = na - nb).
  { subst t. unfold comparacao. rewrite map_map. simpl.
    rewrite (soma_map_sub (fun k => get (value_counts ca) k 0)
                          (fun k => get (value_counts cb) k 0)).
    erewrite (map_ext (fun k => get (value_counts ca) k 0))
      by (intros k; apply value_counts_get).
    erewrite (map_ext (fun k => get (value_counts cb) k 0))
      by (intros k; apply value_counts_get).
    now rewrite Ua, Ub. }
  assert (T4 : soma (map snd s) = na - nb).
  { subst s. unfold subtract. rewrite map_map. simpl.
    rewrite (soma_map_sub (fun k => get (value_counts ca) k 0)
                          (fun k => get (value_counts cb) k 0)).
    erewrite (map_ext (fun k => get (value_counts ca) k 0))
      by (intros k; apply value_counts_get).
    erewrite (map_ext (fun k => get (value_counts cb) k 0))
      by (intros k; apply value_counts_get).
    now rewrite Aa, Ab. }
  repeat split; try assumption.
  - rewrite T3. subst na nb ca cb. unfold len.
    rewrite !dropna_valores_completo, !length_map by (now apply Forall_map).
    reflexivity.
  - rewrite T4. subst na nb ca cb. unfold len.
    rewrite !dropna_valores_completo, !length_map by (now apply Forall_map).
    reflexivity.
Qed.

Lemma contagens_conservadas_witness :
  soma (map Variacao
            (comparacao
               (value_counts (map natureza (periodo df_exemplo "janeiro" 2025)))
               (value_counts (map natureza (periodo df_exemplo "dezembro" 2024))))) =
  len (periodo df_exemplo "janeiro" 2025) - len (periodo df_exemplo "dezembro" 2024).
Proof.
  apply (contagens_conservadas natureza (periodo df_exemplo "janeiro" 2025)
                               (periodo df_exemplo "dezembro" 2024)).
  - vm_compute. repeat constructor; discriminate.
  - vm_compute. repeat constructor; discriminate.
Defined.

(** ** Further results on the ranking *)

Lemma In_firstn {A} (n : nat) (l : list A) (x : A) : In x (firstn n l) -> In x l.
Proof.
  intros H. rewrite <- (firstn_skipn n l). apply in_or_app. now left.
Qed.

Lemma StronglySorted_app_rel {A} (R : A -> A -> Prop) (l1 l2 : list A) :
  StronglySorted R (l1 ++ l2) -> forall x y, In x l1 -> In y l2 -> R x y.
Proof.
  induction l1 as [| a l1 IH]; simpl; intros Hs x y Hx Hy; [contradiction |].
  inversion Hs as [| ? ? Hs' Hall]; subst.
  destruct Hx as [-> | Hx]; [| now apply IH].
  rewrite Forall_forall in Hall. apply Hall, in_or_app. now right.
Qed.

Lemma filter_todos {A} (p : A -> bool) (l : list A) :
  (forall x, In x l -> p x = true) -> filter p l = l.
Proof.
  induction l as [| a l IH]; simpl; intros H; [reflexivity |].
  rewrite (H a) by now left. f_equal. apply IH. auto.
Qed.

Lemma topo_otimo {A} (leb : A -> A -> bool) (n : nat) (s : list A) (x : A) :
  (forall a b, leb a b = false -> leb b a = true) ->
  (forall a b c, leb a b = true -> leb b c = true -> leb a c = true) ->
  In x s -> ~ In x (firstn n (ordenar leb s)) ->
  List.length (firstn n (ordenar leb s)) = n /\
  Forall (fun y => leb y x = true) (firstn n (ordenar leb s)).
Proof.
  intros Htot Htrans Hin Hout.
  assert (Hs : StronglySorted (fun a b => leb a b = true) (ordenar leb s)).
  { apply Sorted_StronglySorted; [exact Htrans | now apply ordenar_sorted]. }
  apply (ordenar_In leb) in Hin.
  rewrite <- (firstn_skipn n (ordenar leb s)) in Hin, Hs.
  apply in_app_or in Hin as [Hin | Hin]; [contradiction |].
  split.
  - rewrite length_firstn. apply Nat.min_l.
    assert (Hl : (0 < List.length (skipn n (ordenar leb s)))%nat).
    { destruct (skipn n (ordenar leb s)); [contradiction | simpl; lia]. }
    rewrite length_skipn in Hl. lia.
  - apply Forall_forall. intros y Hy.
    exact (StronglySorted_app_rel _ _ _ Hs y x Hy Hin).
Qed.

Lemma NoDup_map_firstn {A B} (f : A -> B) (n : nat) (l : list A) :
  NoDup (map f l) -> NoDup (map f (firstn n l)).
Proof.
  intros H. rewrite <- (firstn_skipn n l), map_app in H.
  now apply NoDup_app_remove_r in H.
Qed.

Lemma rotulos_distintos_filter {V K} (rot : V -> K) (l : list V) (cond : V -> bool)
    (Hnd : NoDup (map rot l)) :
  NoDup (map rot (filter cond l)).
Proof.
  induction l as [| x l' Hrec]; simpl in *; [constructor |].
  apply NoDup_cons_iff in Hnd as [Hx Hl'].
  destruct (cond x); simpl; [| auto].
  apply NoDup_cons; [| auto].
  rewrite in_map_iff. intros [y [E Hy]]. apply filter_In in Hy as [Hy _].
  apply Hx. rewrite in_map_iff. eauto.
Qed.

Lemma subtract_entrada (ca cb : list cell) (k : valor) (d : Z) :
  In (k, d) (subtract (value_counts ca) (value_counts cb)) ->
  d = ocorrencias k ca - ocorrencias k cb /\
  (In (Some k) ca \/ In (Some k) cb).
Proof.
  unfold subtract. intros H. apply in_map_iff in H as [k' [[= -> <-] Hk]].
  rewrite !value_counts_get. split; [reflexivity |].
  now rewrite alinhar_In, !value_counts_indice in Hk.
Qed.

Lemma subtract_NoDup (ca cb : list cell) :
  NoDup (indice (subtract (value_counts ca) (value_counts cb))).
Proof.
  unfold subtract, indice. rewrite map_map. simpl. rewrite map_id.
  apply alinhar_NoDup; apply value_counts_NoDup.
Qed.

(** X14. The two rankings of lines 204-236 are right. Every nature listed is a
    nature of the segment with its true difference of counts, listed
    once, and never in both lists. A nature with a negative difference
    is left out of "com redução" only when the list is full with five
    natures whose difference is at most its own; likewise with the larger
    positive differences for "com aumento". *)
Theorem ranking_correto (df_segmento_atual df_segmento_anterior : list registro) :
  let ca := map natureza df_segmento_atual in
  let cb := map natureza df_segmento_anterior in
  let np := naturezas_positivas df_segmento_atual df_segmento_anterior in
  (forall k d, In (k, d) (reducoes np) \/ In (k, d) (aumentos np) ->
     d = ocorrencias k ca - ocorrencias k cb /\
     (In (Some k) ca \/ In (Some k) cb)) /\
  NoDup (indice (reducoes np)) /\
  NoDup (indice (aumentos np)) /\
  (forall k, ~ (In k (indice (reducoes np)) /\ In k (indice (aumentos np)))) /\
  (forall k d, In (k, d) np -> d < 0 -> ~ In (k, d) (reducoes np) ->
     List.length (reducoes np) = 5%nat /\
     Forall (fun kv => snd kv <= d) (reducoes np)) /\
  (forall k d, In (k, d) np -> 0 < d -> ~ In (k, d) (aumentos np) ->
     List.length (aumentos np) = 5%nat /\
     Forall (fun kv => d <= snd kv) (aumentos np)).
Proof.
  intros ca cb np.
  assert (Hnp : np = subtract (value_counts ca) (value_counts cb)) by reflexivity.
  assert (Hnd : NoDup (indice np)) by (rewrite Hnp; apply subtract_NoDup).
  assert (Hred : forall kv, In kv (reducoes np) -> In kv np /\ snd kv < 0).
  { intros kv H. unfold reducoes, nsmallest in H.
    apply filter_In in H as [H Hs]. apply In_firstn, ordenar_In in H.
    split; [exact H | now apply Z.ltb_lt]. }
  assert (Haum : forall kv, In kv (aumentos np) -> In kv np /\ 0 < snd kv).
  { intros kv H. unfold aumentos, nlargest in H.
    apply filter_In in H as [H Hs]. apply In_firstn, ordenar_In in H.
    split; [exact H | apply Z.gtb_lt in Hs; lia]. }
  assert (Hu : forall k d d', In (k, d) np -> In (k, d') np -> d = d').
  { intros k d d' H1 H2. rewrite Hnp in H1, H2.
    apply subtract_entrada in H1 as [-> _], H2 as [-> _]. reflexivity. }
  split; [| split; [| split; [| split; [| split]]]].
  - intros k d [H | H]; [apply Hred in H | apply Haum in H];
      destruct H as [H _]; rewrite Hnp in H; now apply subtract_entrada in H.
  - unfold indice, reducoes, nsmallest.
    apply rotulos_distintos_filter, NoDup_map_firstn.
    eapply Permutation_NoDup; [| exact Hnd].
    apply Permutation_map. symmetry. apply ordenar_perm.
  - unfold indice, aumentos, nlargest.
    apply rotulos_distintos_filter, NoDup_map_firstn.
    eapply Permutation_NoDup; [| exact Hnd].
    apply Permutation_map. symmetry. apply ordenar_perm.
  - intros k [H1 H2]. unfold indice in H1, H2.
    apply in_map_iff in H1 as [[k1 d1] [E1 H1]], H2 as [[k2 d2] [E2 H2]].
    simpl in E1, E2. subst k1 k2.
    apply Hred in H1 as [H1 S1]. apply Haum in H2 as [H2 S2].
    pose proof (Hu _ _ _ H1 H2). simpl in *. lia.
  - intros k d Hin Hd Hout.
    assert (Hf : ~ In (k, d) (firstn 5 (ordenar (fun a b => snd a <=? snd b) np))).
    { intros H. apply Hout. unfold reducoes, nsmallest. apply filter_In.
      split; [exact H | now apply Z.ltb_lt]. }
    destruct (topo_otimo (fun a b : valor * Z => snd a <=? snd b) 5 np (k, d))
      as [Hl Hall]; auto.
    { intros a b H. apply Z.leb_gt in H. apply Z.leb_le. lia. }
    { intros a b c H1 H2. apply Z.leb_le in H1, H2. apply Z.leb_le. lia. }
    assert (Hle : Forall (fun kv : valor * Z => snd kv <= d)
                         (firstn 5 (ordenar (fun a b => snd a <=? snd b) np))).
    { eapply Forall_impl; [| exact Hall]. intros y Hy. now apply Z.leb_le in Hy. }
    unfold reducoes, nsmallest. rewrite filter_todos.
    + split; assumption.
    + intros y Hy. rewrite Forall_forall in Hle. apply Z.ltb_lt.
      specialize (Hle y Hy). lia.
  - intros k d Hin Hd Hout.
    assert (Hf : ~ In (k, d) (firstn 5 (ordenar (fun a b => snd b <=? snd a) np))).
    { intros H. apply Hout. unfold aumentos, nlargest. apply filter_In.
      split; [exact H | apply Z.gtb_lt; simpl; lia]. }
    destruct (topo_otimo (fun a b : valor * Z => snd b <=? snd a) 5 np (k, d))
      as [Hl Hall]; auto.
    { intros a b H. apply Z.leb_gt in H. apply Z.leb_le. lia. }
    { intros a b c H1 H2. apply Z.leb_le in H1, H2. apply Z.leb_le. lia. }
    assert (Hle : Forall (fun kv : valor * Z => d <= snd kv)
                         (firstn 5 (ordenar (fun a b => snd b <=? snd a) np))).
    { eapply Forall_impl; [| exact Hall]. intros y Hy. now apply Z.leb_le in Hy. }
    unfold aumentos, nlargest. rewrite filter_todos.
    + split; assumption.
    + intros y Hy. rewrite Forall_forall in Hle. apply Z.gtb_lt.
      specialize (Hle y Hy). lia.
Qed.

Lemma ranking_correto_witness :
  -2 = ocorrencias (Str "Cobranca")
         (map natureza (do_segmento (Str "Varejo") (periodo df_exemplo "janeiro" 2025))) -
       ocorrencias (Str "Cobranca")
         (map natureza (do_segmento (Str "Varejo") (periodo df_exemplo "dezembro" 2024))) /\
  (In (Some (Str "Cobranca"))
      (map natureza (do_segmento (Str "Varejo") (periodo df_exemplo "janeiro" 2025))) \/
   In (Some (Str "Cobranca"))
      (map natureza (do_segmento (Str "Varejo") (periodo df_exemplo "dezembro" 2024)))).
Proof.
  apply (proj1 (ranking_correto
                  (do_segmento (Str "Varejo") (periodo df_exemplo "janeiro" 2025))
                  (do_segmento (Str "Varejo") (periodo df_exemplo "dezembro" 2024)))
               (Str "Cobranca") (-2)).
  left. vm_compute. auto.
Defined.

(** ** Further results on the expanders *)

Lemma ocorrencias_nao_negativa (k : valor) (col : list cell) : 0 <= ocorrencias k col.
Proof. unfold ocorrencias. lia. Qed.

Lemma value_counts_decrescente (col : list cell) :
  StronglySorted Z.ge (map snd (value_counts col)).
Proof.
  apply StronglySorted_map with (R := Z.ge) (f := snd).
  apply ordenar_decrescente.
Qed.

(** X15. The list "Fatos Geradores mais comuns" of a nature has at most five
    lines, each causal factor once, in descending order of count; a count
    is the number of current records of the nature with that causal
    factor and is positive, so records without a causal factor are in no
    line; a causal factor of the nature is left out only when five are
    listed, each with a count at least as large. *)
Theorem fatos_geradores_correto (df_segmento_atual : list registro) (n : valor) :
  let col := map fato_gerador_fato_gerador (da_natureza n df_segmento_atual) in
  let f := fatos_geradores df_segmento_atual n in
  (List.length f <= 5)%nat /\
  NoDup (indice f) /\
  StronglySorted Z.ge (map snd f) /\
  (forall k c, In (k, c) f -> c = ocorrencias k col /\ 0 < c) /\
  (forall k, In (Some k) col -> ~ In k (indice f) ->
     List.length f = 5%nat /\
     Forall (fun kv => ocorrencias k col <= snd kv) f).
Proof.
  intros col f. subst f. unfold fatos_geradores. fold col.
  split; [apply firstn_le_length |].
  split; [apply NoDup_map_firstn, value_counts_NoDup |].
  split.
  { rewrite <- firstn_map.
    apply StronglySorted_firstn, value_counts_decrescente. }
  split.
  - intros k c H. apply In_firstn, value_counts_entrada in H as [H ->].
    split; [reflexivity | now apply ocorrencias_presente].
  - intros k Hk Hout.
    assert (Hin : In (k, ocorrencias k col) (value_counts col))
      by now apply value_counts_entrada.
    unfold value_counts in *.
    set (s0 := map (fun k0 => (k0, contar k0 (dropna_valores col)))
                   (unique (dropna_valores col))) in *.
    apply ordenar_In in Hin.
    destruct (topo_otimo (fun a b : valor * Z => snd b <=? snd a) 5 s0
                         (k, ocorrencias k col)) as [Hl Hall]; auto.
    + intros a b H. apply Z.leb_gt in H. apply Z.leb_le. lia.
    + intros a b c H1 H2. apply Z.leb_le in H1, H2. apply Z.leb_le. lia.
    + intros H. apply Hout. unfold indice. apply in_map_iff.
      exists (k, ocorrencias k col). auto.
    + split; [exact Hl |]. eapply Forall_impl; [| exact Hall].
      intros y Hy. now apply Z.leb_le in Hy.
Qed.

Lemma fatos_geradores_correto_witness :
  1 = ocorrencias (Str "Sistema")
        (map fato_gerador_fato_gerador
             (da_natureza (Str "Cadastro") (periodo df_exemplo "janeiro" 2025))) /\
  0 < 1.
Proof.
  apply (proj1 (proj2 (proj2 (proj2
           (fatos_geradores_correto (periodo df_exemplo "janeiro" 2025)
                                    (Str "Cadastro")))))
               (Str "Sistema") 1).
  vm_compute. auto.
Defined.

Lemma motivos_relacionados_variacoes (a b : list registro) (n : valor) :
  exists ms,
    motivos_relacionados a b n = inr ms /\
    Forall2 (fun kv l =>
               count_atual l = snd kv /\
               count_anterior l =
                 get (value_counts (map motivo (da_natureza n b))) (fst kv) 0 /\
               exists d, analisar_variacao (count_atual l) (count_anterior l) =
                         inr (var_motivo l, d))
            (value_counts (map motivo (da_natureza n a))) ms.
Proof.
  unfold motivos_relacionados. apply mapM_total. intros kv.
  destruct (analisar_variacao_total (snd kv)
              (get (value_counts (map motivo (da_natureza n b))) (fst kv) 0))
    as [p [d E]].
  rewrite E. simpl. eexists; split; [reflexivity |]. simpl.
  repeat split. exists d. exact E.
Qed.

(** X16. In "Motivos relacionados" the lines come in descending order of the
    current count, which is always positive; a reason without a record in
    the reference period is shown with 100, whatever its current count,
    and any other reason with the percentage of the difference over the
    reference count. The branch of the variation calculator for two zero
    counts is never reached from the report. *)
Theorem motivos_relacionados_percentuais
    (df_segmento_atual df_segmento_anterior : list registro) (n : valor) :
  exists ms,
    motivos_relacionados df_segmento_atual df_segmento_anterior n = inr ms /\
    StronglySorted Z.ge (map count_atual ms) /\
    Forall (fun l =>
              0 < count_atual l /\ 0 <= count_anterior l /\
              (count_anterior l = 0 -> var_motivo l = 100%Q) /\
              (0 < count_anterior l ->
               var_motivo l = percentual (count_atual l) (count_anterior l)))
           ms.
Proof.
  destruct (motivos_relacionados_variacoes df_segmento_atual df_segmento_anterior n)
    as [ms [E F]].
  exists ms. split; [exact E |]. split.
  - replace (map count_atual ms)
      with (map snd (value_counts (map motivo (da_natureza n df_segmento_atual)))).
    + apply value_counts_decrescente.
    + symmetry. apply Forall2_map_eq. eapply Forall2_impl; [| exact F].
      simpl. tauto.
  - apply Forall_forall. intros l Hl.
    destruct (Forall2_In_dir _ _ _ _ F Hl) as [[k c] [Hkv [H1 [H2 [d Hd]]]]].
    simpl in H1, H2.
    apply value_counts_entrada in Hkv as [Hk Hc].
    rewrite value_counts_get in H2.
    assert (Hpos : 0 < count_atual l).
    { rewrite H1, Hc. now apply ocorrencias_presente. }
    assert (Hnn : 0 <= count_anterior l).
    { rewrite H2. apply ocorrencias_nao_negativa. }
    repeat split; try assumption.
    + intros Hz. rewrite Hz in Hd. unfold analisar_variacao in Hd. simpl in Hd.
      destruct (Z.eqb_spec (count_atual l) 0); [lia |]. now injection Hd.
    + intros Hp. rewrite analisar_variacao_direcao in Hd by assumption.
      now injection Hd.
Qed.

Lemma motivos_relacionados_percentuais_witness :
  exists ms,
    motivos_relacionados
      (do_segmento (Str "Varejo") (periodo df_exemplo "janeiro" 2025))
      (do_segmento (Str "Varejo") (periodo df_exemplo "dezembro" 2024))
      (Str "Cobranca") = inr ms /\
    StronglySorted Z.ge (map count_atual ms).
Proof.
  destruct (motivos_relacionados_percentuais
              (do_segmento (Str "Varejo") (periodo df_exemplo "janeiro" 2025))
              (do_segmento (Str "Varejo") (periodo df_exemplo "dezembro" 2024))
              (Str "Cobranca")) as [ms [E [H _]]].
  exists ms. split; assumption.
Defined.

(** ** A period compared with itself *)

Lemma lista_vazia {A} (l : list A) : (forall x, ~ In x l) -> l = [].
Proof.
  destruct l as [| a l]; [reflexivity |]. intros H. exfalso. apply (H a). now left.
Qed.

Lemma sem_diferenca (d : list registro) :
  reducoes (naturezas_positivas d d) = [] /\ aumentos (naturezas_positivas d d) = [].
Proof.
  assert (Hz : forall kv, In kv (naturezas_positivas d d) -> snd kv = 0).
  { intros [k x] H. unfold naturezas_positivas in H.
    apply subtract_entrada in H as [-> _]. simpl. lia. }
  split; apply lista_vazia; intros kv H.
  - unfold reducoes, nsmallest in H. apply filter_In in H as [H Hs].
    apply In_firstn, ordenar_In, Hz in H. apply Z.ltb_lt in Hs. lia.
  - unfold aumentos, nlargest in H. apply filter_In in H as [H Hs].
    apply In_firstn, ordenar_In, Hz in H. apply Z.gtb_lt in Hs. lia.
Qed.

Lemma comparacao_consigo (s : Serie) :
  Forall (fun l => Variacao l = 0) (comparacao s s).
Proof.
  unfold comparacao. apply Forall_map, Forall_forall. intros k _. simpl. lia.
Qed.

Lemma somente_In {A} (l : list (option A)) (a : A) :
  In a (somente l) -> In (Some a) l.
Proof.
  induction l as [| [x |] l IH]; simpl; [tauto | | auto].
  intros [-> | H]; auto.
Qed.

(** X17. When the same period is selected as current and as reference, the
    report shows no change anywhere: the percentage of the summary is 0,
    every row of every comparison table has difference 0, and no nature is
    listed with a reduction or an increase. *)
Theorem mesmo_periodo_sem_variacao (df : list registro) (mes_sel : string) (ano_sel : Z) :
  exists r,
    analisar df mes_sel ano_sel mes_sel ano_sel = inr r /\
    (variacao_geral r == 0)%Q /\
    Forall (fun st =>
              Forall (fun tc =>
                        Forall (fun l => Variacao l = 0) (comparacao_natureza tc) /\
                        Forall (fun l => Variacao l = 0) (comparacao_motivo tc))
                     (snd st))
           (por_segmento_e_canal r) /\
    Forall (fun sd => com_reducao (snd sd) = [] /\ com_aumento (snd sd) = [])
           (por_natureza r).
Proof.
  unfold analisar. set (a := periodo df mes_sel ano_sel).
  assert (Ev : exists q, variacao a a = inr q /\ (q == 0)%Q).
  { unfold variacao, truediv. destruct (len a =? 0); simpl.
    - eexists; split; [reflexivity | reflexivity].
    - eexists; split; [reflexivity |]. rewrite Z.sub_diag.
      unfold Qeq, Qdiv, Qmult, inject_Z. simpl. reflexivity. }
  destruct Ev as [q [Eq Hq]]. rewrite Eq. simpl.
  destruct (mapM_total
              (fun s => d <- analise_natureza a a s ;; ret (s, d))
              (fun _ sd => com_reducao (snd sd) = [] /\ com_aumento (snd sd) = [])
              (segmentos df)) as [dets [Ed Fd]].
  { intros s. unfold analise_natureza.
    destruct (sem_diferenca (do_segmento s a)) as [-> ->]. simpl.
    eexists; split; [reflexivity |]. simpl. auto. }
  rewrite Ed. simpl. eexists. split; [reflexivity |]. simpl.
  split; [exact Hq |]. split.
  - unfold analise_segmento_canal. apply Forall_map, Forall_forall.
    intros s _. cbn [snd]. apply Forall_forall. intros tc Htc.
    apply somente_In, in_map_iff in Htc as [canal [Ec _]].
    unfold analise_canal in Ec.
    destruct (do_canal canal a); [discriminate |].
    injection Ec as <-. simpl. split; apply comparacao_consigo.
  - clear Ed. induction Fd; constructor; auto.
Qed.

(** ** The dominant segment *)

Lemma soma_value_counts (col : list cell) :
  soma (map snd (value_counts col)) = Z.of_nat (List.length (dropna_valores col)).
Proof.
  replace (map snd (value_counts col))
    with (map (fun k => ocorrencias k col) (indice (value_counts col))).
  - apply soma_ocorrencias; [apply value_counts_NoDup |].
    intros k. apply value_counts_indice.
  - unfold indice. rewrite map_map. apply map_ext_in.
    intros [k c] H. apply value_counts_entrada in H as [_ ->]. reflexivity.
Qed.

Lemma ocorrencias_le_total (k : valor) (col : list cell) :
  ocorrencias k col <= Z.of_nat (List.length (dropna_valores col)).
Proof.
  induction col as [| c col IH]; [unfold ocorrencias; simpl; lia |].
  rewrite ocorrencias_cons. destruct c as [x |]; cbn [dropna_valores List.length].
  - rewrite Nat2Z.inj_succ. destruct (valor_eqb k x); lia.
  - lia.
Qed.

Lemma Qltb_lt (x y : Q) : Qltb x y = true <-> (x < y)%Q.
Proof.
  unfold Qltb. rewrite Qlt_alt. destruct (x ?= y)%Q; split; congruence.
Qed.

Lemma fold_left_maior (l : list (valor * Q)) (x : valor * Q) :
  In (fold_left maior l x) (x :: l) /\
  forall y, In y (x :: l) -> (snd y <= snd (fold_left maior l x))%Q.
Proof.
  revert x. induction l as [| y l IH]; intros x; simpl.
  - split; [now left |]. intros z [<- | []]. apply Qle_refl.
  - destruct (IH (maior x y)) as [Hin Hmax].
    assert (Hx : (snd x <= snd (maior x y))%Q /\ (snd y <= snd (maior x y))%Q /\
                 (maior x y = x \/ maior x y = y)).
    { unfold maior. destruct (Qltb (snd x) (snd y)) eqn:E.
      - apply Qltb_lt in E. repeat split; auto using Qlt_le_weak, Qle_refl.
      - repeat split; auto using Qle_refl.
        apply Qnot_lt_le. intros H. apply Qltb_lt in H. congruence. }
    destruct Hx as [Hx [Hy Hor]]. split.
    + destruct Hin as [Hin | Hin]; [| auto].
      rewrite <- Hin. destruct Hor as [-> | ->]; auto.
    + intros z [<- | [<- | Hz]].
      * eapply Qle_trans; [exact Hx |]. apply Hmax. now left.
      * eapply Qle_trans; [exact Hy |]. apply Hmax. now left.
      * apply Hmax. now right.
Qed.

Lemma parcela_de_le (c c' n : Z) :
  0 < n -> (parcela_de c' n <= parcela_de c n)%Q -> c' <= c.
Proof.
  intros Hn. unfold parcela_de, Qle, Qdiv, Qmult, Qinv, inject_Z.
  destruct n as [| pn | pn]; try lia. simpl. nia.
Qed.

Lemma parcela_de_limites (c n : Z) :
  0 < c -> c <= n -> (0 < parcela_de c n)%Q /\ (parcela_de c n <= 100)%Q.
Proof.
  intros Hc Hn. unfold parcela_de, Qle, Qlt, Qdiv, Qmult, Qinv, inject_Z.
  destruct n as [| pn | pn]; try lia. simpl. split; nia.
Qed.

Lemma segmento_contagem_entrada (df_atual : list registro) (k : valor) (p : Q) :
  In (k, p) (segmento_contagem df_atual) <->
  In (Some k) (map segmento df_atual) /\
  p = parcela_de (ocorrencias k (map segmento df_atual))
                 (Z.of_nat (List.length (dropna_valores (map segmento df_atual)))).
Proof.
  unfold segmento_contagem, value_counts_normalize.
  rewrite soma_value_counts, map_map. simpl. rewrite in_map_iff. split.
  - intros [[k' c] [[= -> <-] H]]. apply value_counts_entrada in H as [H ->].
    split; [exact H | reflexivity].
  - intros [H ->]. exists (k, ocorrencias k (map segmento df_atual)).
    split; [reflexivity | now apply value_counts_entrada].
Qed.

(** X18. Lines 106-111. Nothing is written under "Impacto Geral" exactly when
    no current record has a segment. Otherwise the segment named is a
    segment of a current record that no other segment exceeds in number of
    current records, and the percentage shown is its number of records
    over the number of current records with a segment, times 100; it lies
    above 0 and is at most 100. *)
Theorem impacto_geral_correto (df_atual : list registro) :
  let col := map segmento df_atual in
  let n := Z.of_nat (List.length (dropna_valores col)) in
  (impacto_geral df_atual = None <-> forall k, ~ In (Some k) col) /\
  (forall k p, impacto_geral df_atual = Some (k, p) ->
     In (Some k) col /\
     p = parcela_de (ocorrencias k col) n /\
     (forall k', ocorrencias k' col <= ocorrencias k col) /\
     (0 < p)%Q /\ (p <= 100)%Q).
Proof.
  intros col n. unfold impacto_geral, idxmax_max. split.
  - split.
    + intros H k Hk.
      destruct (segmento_contagem df_atual) as [| kv l] eqn:E; [| discriminate].
      assert (Hin : In (k, parcela_de (ocorrencias k col) n) (segmento_contagem df_atual))
        by (apply segmento_contagem_entrada; auto).
      rewrite E in Hin. contradiction.
    + intros H. destruct (segmento_contagem df_atual) as [| [k p] l] eqn:E;
        [reflexivity |].
      exfalso. apply (H k).
      assert (Hin : In (k, p) (segmento_contagem df_atual)) by (rewrite E; now left).
      now apply segmento_contagem_entrada in Hin.
  - intros k p H.
    destruct (segmento_contagem df_atual) as [| kv l] eqn:E; [discriminate |].
    injection H as H.
    destruct (fold_left_maior l kv) as [Hin Hmax]. rewrite H in Hin, Hmax.
    rewrite <- E in Hin, Hmax.
    apply segmento_contagem_entrada in Hin as [Hk Hp]. fold col n in Hk, Hp.
    assert (Hn : 0 < n).
    { pose proof (ocorrencias_presente k col Hk).
      pose proof (ocorrencias_le_total k col). subst n. lia. }
    split; [exact Hk |]. split; [exact Hp |]. split.
    + intros k'. destruct (presente_ou_ausente k' col) as [Hk' | Hk'].
      * apply (parcela_de_le _ _ n Hn). rewrite <- Hp.
        apply (Hmax (k', parcela_de (ocorrencias k' col) n)).
        apply segmento_contagem_entrada. auto.
      * rewrite (ocorrencias_ausente k' col Hk'). apply ocorrencias_nao_negativa.
    + rewrite Hp. apply parcela_de_limites.
      * now apply ocorrencias_presente.
      * apply ocorrencias_le_total.
Qed.

Lemma impacto_geral_correto_witness :
  In (Some (Str "Varejo")) (map segmento (periodo df_exemplo "dezembro" 2024)) /\
  (300 # 3)%Q =
    parcela_de (ocorrencias (Str "Varejo") (map segmento (periodo df_exemplo "dezembro" 2024)))
               (Z.of_nat (List.length
                  (dropna_valores (map segmento (periodo df_exemplo "dezembro" 2024))))) /\
  (forall k', ocorrencias k' (map segmento (periodo df_exemplo "dezembro" 2024)) <=
              ocorrencias (Str "Varejo") (map segmento (periodo df_exemplo "dezembro" 2024))) /\
  (0 < 300 # 3)%Q /\ (300 # 3 <= 100)%Q.
Proof.
  apply (proj2 (impacto_geral_correto (periodo df_exemplo "dezembro" 2024))
               (Str "Varejo") (300 # 3)%Q).
  now vm_compute.
Defined.

(** ** The years offered for selection *)

Lemma inserir_map {A B} (f : A -> B) (leb : A -> A -> bool) (leb' : B -> B -> bool)
    (x : A) (l : list A) :
  (forall a b, leb' (f a) (f b) = leb a b) ->
  inserir leb' (f x) (map f l) = map f (inserir leb x l).
Proof.
  intros H. induction l as [| y l IH]; simpl; [reflexivity |].
  rewrite H. destruct (leb x y); simpl; [reflexivity | now rewrite IH].
Qed.

Lemma ordenar_map {A B} (f : A -> B) (leb : A -> A -> bool) (leb' : B -> B -> bool)
    (l : list A) :
  (forall a b, leb' (f a) (f b) = leb a b) ->
  ordenar leb' (map f l) = map f (ordenar leb l).
Proof.
  intros H. induction l as [| x l IH]; simpl; [reflexivity |].
  rewrite IH. now apply inserir_map.
Qed.

Lemma inteiros_map (l : list valor) :
  (forall s, ~ In (Str s) l) -> map Int (inteiros l) = l.
Proof.
  induction l as [| [z | s] l IH]; simpl; intros H; [reflexivity | |].
  - f_equal. apply IH. intros s Hs. apply (H s). now right.
  - exfalso. apply (H s). now left.
Qed.

Lemma StronglySorted_estrito (l : list Z) :
  StronglySorted Z.ge l -> NoDup l -> StronglySorted Z.gt l.
Proof.
  induction 1 as [| x l Hs IH Hall]; intros Hnd; constructor;
    inversion Hnd as [| ? ? Hx Hl]; subst; [auto |].
  rewrite Forall_forall in *. intros y Hy.
  specialize (Hall y Hy). assert (x <> y) by (intros ->; contradiction). lia.
Qed.

(** X19. Line 81, on a frame whose years are whole numbers or missing, as
    [processar_dados] leaves them: the selector offers every year that
    some record has, each once, the most recent first. *)
Theorem anos_disponiveis_correto (df : list registro) :
  (forall r s, In r df -> ano r <> Some (Str s)) ->
  exists zs,
    anos_disponiveis df = inr (map Int zs) /\
    StronglySorted Z.gt zs /\
    (forall z, In z zs <-> In (Some (Int z)) (map ano df)).
Proof.
  intros Hint. unfold anos_disponiveis.
  set (anos := unique (dropna_valores (map ano df))).
  assert (Hs : forall s, ~ In (Str s) anos).
  { intros s H. apply unique_In, dropna_valores_In, in_map_iff in H as [r [E Hr]].
    exact (Hint r s Hr E). }
  assert (Ea : map Int (inteiros anos) = anos) by now apply inteiros_map.
  assert (Ht : mesmo_tipo anos = true).
  { unfold mesmo_tipo. apply orb_true_iff. left. apply forallb_forall.
    intros [z | s] H; [reflexivity | now apply Hs in H]. }
  rewrite Ht.
  exists (ordenar (fun a b => b <=? a) (inteiros anos)).
  split.
  { rewrite <- (ordenar_map Int (fun a b => b <=? a)
                            (fun a b => valor_leb b a)) by reflexivity.
    now rewrite Ea. }
  split.
  - apply StronglySorted_estrito.
    + apply Sorted_StronglySorted; [intros a b c; lia |].
      eapply Sorted_impl; [| apply ordenar_sorted].
      * intros a b H. simpl in H. apply Z.leb_le in H. lia.
      * intros a b H. simpl in *. apply Z.leb_gt in H. apply Z.leb_le. lia.
    + eapply Permutation_NoDup; [symmetry; apply ordenar_perm |].
      apply (NoDup_map_inv Int). rewrite Ea. apply unique_NoDup.
  - intros z. rewrite ordenar_In.
    rewrite <- dropna_valores_In, <- unique_In. fold anos.
    split.
    + intros H. rewrite <- Ea. now apply in_map.
    + intros H. rewrite <- Ea in H.
      apply in_map_iff in H as [z' [[= ->] H]]. exact H.
Qed.

Lemma anos_disponiveis_correto_witness :
  exists zs,
    anos_disponiveis df_exemplo = inr (map Int zs) /\
    StronglySorted Z.gt zs /\
    (forall z, In z zs <-> In (Some (Int z)) (map ano df_exemplo)).
Proof.
  apply (anos_disponiveis_correto df_exemplo).
  intros r s H. vm_compute in H.
  repeat (destruct H as [<- | H]; [discriminate |]). contradiction.
Defined.

(** ** Column names in any spelling *)

Lemma strip_lower_grafia (m h : string) :
  lower m = m -> rstrip m = m -> lstrip m = m -> m <> EmptyString ->
  grafia m h -> strip (lower h) = m.
Proof.
  intros Hlow Hr Hl Hne [w1 [v [w2 [-> [H1 [H2 Hv]]]]]].
  rewrite !lower_append, (lower_espacos w1 H1), (lower_espacos w2 H2),
    (variante_caixa_lower m v Hv Hlow).
  now apply strip_entre_espacos.
Qed.

Lemma nth_error_rename (old new : string) (cols : list string) (i : nat) (c : string) :
  nth_error cols i = Some c ->
  nth_error (rename old new cols) i = Some (if String.eqb c old then new else c).
Proof.
  intros H. unfold rename. now rewrite nth_error_map, H.
Qed.

(** X20. A column is recognised whatever the case of its letters and the white
    space around its name, and the accented name of the month column
    stands for "mes": a header that spells one of the names the code reads
    is, after lines 30-33, that name at the same position. *)
Theorem cabecalho_reconhecido (cols : list string) (i : nat) (h m : string) :
  In m ["ano"; "mes"; mes_acentuado; "segmento"; "ds_canal"; "natureza"; "motivo";
        "fato_gerador_fato_gerador"] ->
  grafia m h ->
  nth_error cols i = Some h ->
  nth_error (normalizar_colunas cols) i =
    Some (if String.eqb m mes_acentuado then "mes" else m).
Proof.
  intros Hm Hg Hi.
  assert (E : strip (lower h) = m).
  { apply strip_lower_grafia; try assumption; simpl in Hm;
      repeat (destruct Hm as [<- | Hm]; [now vm_compute |]); contradiction. }
  assert (H1 : nth_error (map (fun c => strip (lower c)) cols) i = Some m).
  { now rewrite nth_error_map, Hi, <- E. }
  unfold normalizar_colunas.
  destruct (str_in mes_acentuado (map _ cols)) eqn:Es.
  - now apply nth_error_rename.
  - rewrite H1. destruct (String.eqb_spec m mes_acentuado) as [-> | _]; [| reflexivity].
    apply nth_error_In in H1. apply str_in_In in H1. congruence.
Qed.

Lemma cabecalho_reconhecido_witness :
  nth_error (normalizar_colunas ["Ano"; " Mes "]) 1 = Some "mes".
Proof.
  apply (cabecalho_reconhecido ["Ano"; " Mes "] 1 " Mes " "mes").
  - right. left. reflexivity.
  - exists " ", "Mes", " ". repeat split.
    apply (vc_maiuscula "m"). apply vc_igual. apply vc_igual. apply vc_vazio.
  - reflexivity.
Defined.

(** ** Periods without records *)

(** X21. When neither of the two periods selected has a record, the report is
    still produced: both totals and the percentage are 0, every segment
    keeps its heading, no channel table is shown under any of them, and
    no nature is listed. *)
Theorem periodos_sem_registros (df : list registro)
    (mes_atual : string) (ano_atual : Z) (mes_anterior : string) (ano_anterior : Z) :
  periodo df mes_atual ano_atual = [] ->
  periodo df mes_anterior ano_anterior = [] ->
  analisar df mes_atual ano_atual mes_anterior ano_anterior =
    inr (mkRelatorio 0 0 0%Q
           (map (fun s => (s, [])) (segmentos df))
           (map (fun s => (s, mkDetalhada [] [])) (segmentos df))).
Proof.
  intros Ha Hb. unfold analisar. rewrite Ha, Hb.
  change (variacao [] []) with (@inr exc Q 0%Q).
  unfold bind at 1.
  assert (E : mapM (fun s => d <- analise_natureza [] [] s ;; ret (s, d)) (segmentos df) =
              inr (map (fun s => (s, mkDetalhada [] [])) (segmentos df))).
  { induction (segmentos df) as [| s l IH]; [reflexivity |].
    cbn [mapM map]. rewrite IH. reflexivity. }
  rewrite E. reflexivity.
Qed.

Lemma periodos_sem_registros_witness :
  analisar df_exemplo "maio" 2020 "abril" 2020 =
    inr (mkRelatorio 0 0 0%Q
           (map (fun s => (s, [])) (segmentos df_exemplo))
           (map (fun s => (s, mkDetalhada [] [])) (segmentos df_exemplo))).
Proof.
  apply (periodos_sem_registros df_exemplo "maio" 2020 "abril" 2020);
    now vm_compute.
Defined.
